(** * webp2png-converter: the conversion page ([src/pages/index.tsx])

    A shallow embedding of the [Home] component's state logic: the
    [images] state with the updaters handed to [setImages], the
    [processFile] conversion of one file, and the [downloadAll] archive
    builder.  The browser (random numbers, image decoding, canvas
    export) and the JSZip file table are modelled by their documented
    behaviour; everything else follows the component line by line. *)

From Stdlib Require Import Ascii.
From stdpp Require Import gmap strings list fin_maps.

(** ** Strings *)

Module Str.

(** [s.startsWith(p)] *)
Definition startsWith (s p : string) : bool := String.prefix p s.

(** What is left of [s] once the leading [p] is taken off, when [s]
    starts with [p]. *)
Fixpoint removePrefix (p s : string) : option string :=
  match p, s with
  | EmptyString, _ => Some s
  | String a p', String b s' =>
      if Ascii.eqb a b then removePrefix p' s' else None
  | String _ _, EmptyString => None
  end.

(** The character class [[^/.]]. *)
Definition extChar (c : ascii) : bool :=
  negb (Ascii.eqb c "/"%char) && negb (Ascii.eqb c "."%char).

(** [[^/.]*$] matched against the whole of [s]. *)
Fixpoint extChars (s : string) : bool :=
  match s with
  | EmptyString => true
  | String c s' => extChar c && extChars s'
  end.

(** [[^/.]+$] matched against the whole of [s]. *)
Definition extTail (s : string) : bool :=
  match s with
  | EmptyString => false
  | String _ _ => extChars s
  end.

(** [s.replace(/\.[^/.]+$/, '')]: the leftmost position where a dot
    is followed, up to the end of the string, by one or more
    characters other than [/] and [.]; the string is cut there. *)
Fixpoint stripExtension (s : string) : string :=
  match s with
  | EmptyString => EmptyString
  | String c s' =>
      if Ascii.eqb c "."%char && extTail s' then EmptyString
      else String c (stripExtension s')
  end.

(** [s.slice(-1)], as an option. *)
Fixpoint lastChar (s : string) : option ascii :=
  match s with
  | EmptyString => None
  | String c EmptyString => Some c
  | String _ s' => lastChar s'
  end.

(** [s.substring(0, s.length - 1)] *)
Fixpoint dropLast (s : string) : string :=
  match s with
  | EmptyString => EmptyString
  | String _ EmptyString => EmptyString
  | String c s' => String c (dropLast s')
  end.

(** [s.substring(0, s.lastIndexOf("/"))], [None] when [s] has no
    slash (lastIndexOf gives -1). *)
Fixpoint beforeLastSlash (s : string) : option string :=
  match s with
  | EmptyString => None
  | String c s' =>
      match beforeLastSlash s' with
      | Some p => Some (String c p)
      | None => if Ascii.eqb c "/"%char then Some EmptyString else None
      end
  end.

(** [s] contains no [/]. *)
Fixpoint flat (s : string) : bool :=
  match s with
  | EmptyString => true
  | String c s' => negb (Ascii.eqb c "/"%char) && flat s'
  end.

End Str.

(** ** The component's data *)

(** [status: 'pending' | 'converting' | 'done' | 'error'] *)
Inductive Status := pending | converting | done | error.

#[global] Instance Status_eq_dec : EqDecision Status.
Proof. solve_decision. Defined.

(** [type ConvertedImage] *)
Record ConvertedImage := {
  id : string;
  originalName : string;
  pngUrl : string;
  status : Status
}.

#[global] Instance ConvertedImage_eq_dec : EqDecision ConvertedImage.
Proof. solve_decision. Defined.

(** The two fields of a DOM [File] the component reads. *)
Record File := { name : string; type : string }.

(** ** The browser, as far as one conversion sees it *)

Record ImageBitmap := { width : N; height : N }.

Record Canvas := { canvasWidth : N; canvasHeight : N }.

(** The value of [canvas.toDataURL('image/png')]: by the HTML standard
    either the PNG serialisation of the bitmap as a base64 data URL, or
    the string [data:,] when the canvas has no pixels or cannot be
    serialised. *)
Inductive DataURL := PngData (base64 : string) | NoData.

Definition pngPrefix : string := "data:image/png;base64,".

Definition dataUrlString (u : DataURL) : string :=
  match u with
  | PngData b => pngPrefix +:+ b
  | NoData => "data:,"
  end.

(** The browser's answers to the calls made inside the [try] block of
    one [processFile] run. *)
Record Host := {
  createImageBitmap : option ImageBitmap;  (* [None]: the promise rejects *)
  getContext2d : bool;                     (* [false]: [getContext] is null *)
  toDataURL : Canvas -> DataURL
}.

(** The body of the [try] block up to [toDataURL]: [Some pngUrl] when it
    runs through, [None] when it throws into the [catch]. *)
Definition convert (h : Host) : option string :=
  match createImageBitmap h with
  | None => None
  | Some bitmap =>
      let canvas := {| canvasWidth := width bitmap;
                       canvasHeight := height bitmap |} in
      if getContext2d h then Some (dataUrlString (toDataURL h canvas))
      else None
  end.

(** ** The [images] state and the updaters passed to [setImages] *)

(** [prev => [...prev, { id, originalName: file.name, pngUrl: '',
    status: 'converting' }]] *)
Definition register (i original : string) (prev : list ConvertedImage)
  : list ConvertedImage :=
  prev ++ [ {| id := i; originalName := original; pngUrl := EmptyString;
               status := converting |} ].

(** [prev => prev.map(img => img.id === id
      ? { ...img, pngUrl, status: 'done' } : img)] *)
Definition markDone (i url : string) (prev : list ConvertedImage)
  : list ConvertedImage :=
  (λ img, if decide (id img = i)
          then {| id := id img; originalName := originalName img;
                  pngUrl := url; status := done |}
          else img) <$> prev.

(** [prev => prev.map(img => img.id === id
      ? { ...img, status: 'error' } : img)] *)
Definition markError (i : string) (prev : list ConvertedImage)
  : list ConvertedImage :=
  (λ img, if decide (id img = i)
          then {| id := id img; originalName := originalName img;
                  pngUrl := pngUrl img; status := error |}
          else img) <$> prev.

(** [prev => prev.filter(i => i.id !== img.id)] *)
Definition removeItem (i : string) (prev : list ConvertedImage)
  : list ConvertedImage :=
  filter (λ img, id img ≠ i) prev.

(** [setImages([])] *)
Definition clearAll : list ConvertedImage := [].

(** ** The page as a transition system *)

(** The page's state: the [images] list, and the identifiers of the
    [processFile] runs that are suspended at [await createImageBitmap]
    (one entry per run, in the order they started). *)
Record State := {
  images : list ConvertedImage;
  awaiting : list string
}.

Definition initial : State := {| images := []; awaiting := [] |}.

(** What can happen to the page.  [random] stands for the value of
    [Math.random().toString(36).substr(2, 9)] in that run. *)
Inductive Event :=
| ProcessFile (file : File) (random : string)
| Settle (i : string) (h : Host)
| RemoveItem (i : string)
| ClearAll
| DownloadAll.

(** The first occurrence of [i] taken out of [l]. *)
Fixpoint takeOut (i : string) (l : list string) : option (list string) :=
  match l with
  | [] => None
  | j :: l' => if decide (j = i) then Some l' else (j ::.) <$> takeOut i l'
  end.

(** [processFile] up to its [await]: the type guard, the identifier,
    the registration. *)
Definition processFile (file : File) (random : string) (s : State) : State :=
  if negb (Str.startsWith (type file) "image/") then s
  else {| images := register random (name file) (images s);
          awaiting := awaiting s ++ [random] |}.

(** [processFile] from its [await] on, for the run that drew [i]. *)
Definition settle (i : string) (h : Host) (prev : list ConvertedImage)
  : list ConvertedImage :=
  match convert h with
  | Some url => markDone i url prev
  | None => markError i prev
  end.

(** One step of the page.  Only a suspended run can settle: [None]
    when no run that drew [i] is waiting. *)
Definition step (s : State) (e : Event) : option State :=
  match e with
  | ProcessFile file random => Some (processFile file random s)
  | Settle i h =>
      rest ← takeOut i (awaiting s);
      Some {| images := settle i h (images s); awaiting := rest |}
  | RemoveItem i =>
      Some {| images := removeItem i (images s); awaiting := awaiting s |}
  | ClearAll => Some {| images := clearAll; awaiting := awaiting s |}
  | DownloadAll => Some s
  end.

(** A run of the page: the events applied one after the other. *)
Fixpoint exec (s : State) (t : list Event) : option State :=
  match t with
  | [] => Some s
  | e :: t' => s' ← step s e; exec s' t'
  end.

(** The identifiers drawn along a run: one per file that passes the
    type guard. *)
Fixpoint drawn (t : list Event) : list string :=
  match t with
  | [] => []
  | ProcessFile file random :: t' =>
      if Str.startsWith (type file) "image/" then random :: drawn t'
      else drawn t'
  | _ :: t' => drawn t'
  end.

(** ** The archive *)

(** An entry of JSZip's file table. *)
Inductive ZipObject := ZipFile (base64 : string) | ZipFolder.

(** JSZip's [files] object: entry name to entry. *)
Abbreviation JSZip := (gmap string ZipObject).

Module Zip.

(** JSZip's [forceTrailingSlash]. *)
Definition forceTrailingSlash (path : string) : string :=
  if decide (Str.lastChar path = Some "/"%char) then path
  else path +:+ "/".

(** JSZip's [parentFolder]: the path up to its last slash, a trailing
    slash not counted; empty when there is none or it is the first
    character. *)
Definition parentFolder (path : string) : string :=
  let path := if decide (Str.lastChar path = Some "/"%char)
              then Str.dropLast path else path in
  default EmptyString (Str.beforeLastSlash path).

(** JSZip's [folderAdd] with [createFolders]: unless the folder is
    already there, its own parent folders are added, then the folder.
    [fuel] bounds the depth of the path. *)
Fixpoint folderAdd (fuel : nat) (path : string) (files : JSZip) : JSZip :=
  let path := forceTrailingSlash path in
  match files !! path, fuel with
  | Some _, _ => files
  | None, O => <[path := ZipFolder]> files
  | None, S fuel' =>
      let parent := parentFolder path in
      let files := if decide (parent = EmptyString) then files
                   else folderAdd fuel' parent files in
      <[path := ZipFolder]> files
  end.

(** [zip.file(name, data, { base64: true })]: the folders of [name]
    are created ([createFolders] is on by default), then the entry is
    stored under [name], replacing the one already there. *)
Definition file (path data : string) (files : JSZip) : JSZip :=
  let parent := parentFolder path in
  let files := if decide (parent = EmptyString) then files
               else folderAdd (String.length parent) parent files in
  <[path := ZipFile data]> files.

End Zip.

(** [img.pngUrl.replace(/^data:image\/png;base64,/, '')] *)
Definition base64Data (img : ConvertedImage) : string :=
  default (pngUrl img) (Str.removePrefix pngPrefix (pngUrl img)).

(** [img.originalName.replace(/\.[^/.]+$/, '') + '.png'] *)
Definition fileName (img : ConvertedImage) : string :=
  Str.stripExtension (originalName img) +:+ ".png".

(** The [forEach] body of [downloadAll]. *)
Definition addEntry (zip : JSZip) (img : ConvertedImage) : JSZip :=
  Zip.file (fileName img) (base64Data img) zip.

(** The file table [downloadAll] has built when it calls
    [generateAsync]. *)
Definition archive (imgs : list ConvertedImage) : JSZip :=
  foldl addEntry ∅ (filter (λ img, status img = done) imgs).

(** The name and content [downloadAll] passes to [zip.file] for an
    item. *)
Definition entry (img : ConvertedImage) : string * ZipObject :=
  (fileName img, ZipFile (base64Data img)).

(** The entries of a file table that are files, not folders. *)
Definition isFile (o : ZipObject) : bool :=
  match o with
  | ZipFile _ => true
  | ZipFolder => false
  end.

Definition fileEntries (zip : JSZip) : list (string * ZipObject) :=
  filter (λ e, isFile e.2 = true) (map_to_list zip).

Section Download.

(** JSZip's serialiser: the blob for a file table, or [None] when the
    promise rejects. *)
Context {Blob : Type} (generateAsync : JSZip → option Blob).

(** [saveAs(content, filename)] *)
Inductive Effect := SaveAs (content : Blob) (filename : string).

Definition downloadAll (imgs : list ConvertedImage) : list Effect :=
  match generateAsync (archive imgs) with
  | Some content => [SaveAs content "converted_images.zip"]
  | None => []
  end.

End Download.

(** ** The event handlers *)

(** [files.forEach(processFile)]: the files of one drop or selection,
    each with the identifier its [processFile] call draws if the file
    passes the type guard. *)
Definition processFiles (files : list (File * string)) (s : State) : State :=
  foldl (λ s fr, processFile fr.1 fr.2 s) s files.

(** The component's two pieces of state, [images] (with the suspended
    runs) and [isDragging]. *)
Record Page := {
  page : State;
  isDragging : bool
}.

(** [onDragOver]: [setIsDragging(true)] *)
Definition onDragOver (p : Page) : Page :=
  {| page := page p; isDragging := true |}.

(** [onDragLeave]: [setIsDragging(false)] *)
Definition onDragLeave (p : Page) : Page :=
  {| page := page p; isDragging := false |}.

(** [handleDrop]: the highlight goes off and every dropped file is
    handed to [processFile]. *)
Definition handleDrop (files : list (File * string)) (p : Page) : Page :=
  {| page := processFiles files (page p); isDragging := false |}.

(** [handleFileSelect]: the files of the input, when it has any
    ([e.target.files] may be null). *)
Definition handleFileSelect (files : option (list (File * string)))
    (p : Page) : Page :=
  match files with
  | Some fs => {| page := processFiles fs (page p); isDragging := isDragging p |}
  | None => p
  end.

(** The number of settlements in a run. *)
Fixpoint settled (t : list Event) : nat :=
  match t with
  | [] => 0
  | Settle _ _ :: t' => S (settled t')
  | _ :: t' => settled t'
  end.

(** The names of the files that pass the type guard along a run. *)
Fixpoint acceptedNames (t : list Event) : list string :=
  match t with
  | [] => []
  | ProcessFile file _ :: t' =>
      if Str.startsWith (type file) "image/" then name file :: acceptedNames t'
      else acceptedNames t'
  | _ :: t' => acceptedNames t'
  end.

(** The events that take items off the list. *)
Definition removes (e : Event) : bool :=
  match e with
  | RemoveItem _ | ClearAll => true
  | _ => false
  end.

(** ** What the page shows *)

(** The square of a gallery card: the spinner while [converting], else
    the image when [pngUrl] is truthy, else the error text. *)
Inductive Thumbnail := Spinner | Picture (src : string) | ErrorMark.

Definition thumbnail (img : ConvertedImage) : Thumbnail :=
  if decide (status img = converting) then Spinner
  else match pngUrl img with
       | EmptyString => ErrorMark
       | String _ _ => Picture (pngUrl img)
       end.

(** A gallery card: its React key, the thumbnail, the caption, the
    download anchor ([href] and [download] attributes) when there is
    one, and the identifier its remove button filters out. *)
Record Card := {
  key : string;
  thumb : Thumbnail;
  caption : string;
  anchor : option (string * string);
  removeTarget : string
}.

Definition card (img : ConvertedImage) : Card :=
  {| key := id img;
     thumb := thumbnail img;
     caption := Str.stripExtension (originalName img) +:+ ".png";
     anchor := if decide (status img = done)
               then Some (pngUrl img,
                          Str.stripExtension (originalName img) +:+ ".png")
               else None;
     removeTarget := id img |}.

(** The rendered page: the actions bar with its item count, present
    only when [images.length > 0], and the gallery. *)
Record View := {
  actions : option nat;
  gallery : list Card
}.

Definition render (imgs : list ConvertedImage) : View :=
  {| actions := if decide (0 < length imgs) then Some (length imgs) else None;
     gallery := card <$> imgs |}.

(** What holds of an item whatever identifiers were drawn: it is never
    [pending], it has no output while [converting], and once [done] its
    output is a data URL. *)
Definition Sound (img : ConvertedImage) : Prop :=
  status img ≠ pending ∧
  (status img = converting → pngUrl img = EmptyString) ∧
  (status img = done → Str.startsWith (pngUrl img) "data:" = true).

(** ** Reading the export back *)

(** The base64 alphabet, padding included. *)
Definition base64Char (c : ascii) : bool :=
  let n := nat_of_ascii c in
  ((65 <=? n) && (n <=? 90)) || ((97 <=? n) && (n <=? 122)) ||
  ((48 <=? n) && (n <=? 57)) ||
  Ascii.eqb c "+"%char || Ascii.eqb c "/"%char || Ascii.eqb c "="%char.

Fixpoint isBase64 (s : string) : bool :=
  match s with
  | EmptyString => true
  | String c s' => base64Char c && isBase64 s'
  end.

(** The pixel width and height of the PNG a text encodes: none when the
    text is not base64, else what the PNG decoder [pngDims] reads from
    the bytes (none when they are not a PNG).  The decoder is the
    browser's and is taken as a parameter. *)
Definition pngSize (pngDims : string → option (N * N)) (s : string)
  : option (N * N) :=
  if isBase64 s then pngDims s else None.

(** The contract of the browser's PNG encoder: when [toDataURL]
    serialises a canvas, the payload is base64 of a PNG with the
    canvas's width and height. *)
Definition pngEncoder (pngDims : string → option (N * N)) (h : Host) : Prop :=
  ∀ c b, toDataURL h c = PngData b →
         isBase64 b = true ∧ pngDims b = Some (canvasWidth c, canvasHeight c).


Module Browser.

(** A browser that decodes a valid image of 40000 by 40000 pixels and
    cannot serialise a canvas of that size: [toDataURL] gives
    [data:,]. *)
Definition unserialised : Host :=
  {| createImageBitmap := Some {| width := 40000; height := 40000 |};
     getContext2d := true;
     toDataURL := λ _, NoData |}.

(** A browser that decodes an image of 2 by 2 pixels and serialises
    canvases of that size. *)
Definition encodes : Host :=
  {| createImageBitmap := Some {| width := 2; height := 2 |};
     getContext2d := true;
     toDataURL := λ c, if ((canvasWidth c =? 2) && (canvasHeight c =? 2))%N
                       then PngData "iVBORw0KGgo="
                       else NoData |}.

(** A decoder that knows that one payload. *)
Definition pngDims (b : string) : option (N * N) :=
  if decide (b = "iVBORw0KGgo=") then Some (2, 2)%N else None.

End Browser.

(** ** Runs that never draw an identifier twice *)

(** [used] lists the identifiers drawn so far.  Identifiers in the list
    are distinct, no two suspended runs share one, both come from
    [used], and an item is [converting] with empty output exactly while
    its run is suspended; afterwards it is [done] with output or
    [error] without. *)
Definition Inv (used : list string) (s : State) : Prop :=
  NoDup (id <$> images s) ∧
  NoDup (awaiting s) ∧
  (∀ img, img ∈ images s → id img ∈ used) ∧
  (∀ i, i ∈ awaiting s → i ∈ used) ∧
  (∀ img, img ∈ images s →
     (id img ∈ awaiting s ∧ status img = converting ∧ pngUrl img = EmptyString) ∨
     ((id img ∉ awaiting s) ∧
      ((status img = done ∧ pngUrl img ≠ EmptyString) ∨
       (status img = error ∧ pngUrl img = EmptyString)))).

(** [x] is settled in [s]: its identifier has been drawn, no suspended
    run holds it, and an item of [s] with that identifier is [x]. *)
Definition Settled (x : ConvertedImage) (used : list string) (s : State) : Prop :=
  id x ∈ used ∧ (id x ∉ awaiting s) ∧
  ∀ z, z ∈ images s → id z = id x → z = x.

(** ** Sample inputs *)

Module Sample.

Definition photo_webp : File := {| name := "photo.webp"; type := "image/webp" |}.
Definition scan_webp : File := {| name := "scan.webp"; type := "image/webp" |}.
Definition notes_txt : File := {| name := "notes.txt"; type := "text/plain" |}.

(** A conversion that runs through. *)
Definition decodes : Host :=
  {| createImageBitmap := Some {| width := 2; height := 2 |};
     getContext2d := true;
     toDataURL := λ _, PngData "iVBORw0KGgo=" |}.

(** A conversion whose [createImageBitmap] promise rejects. *)
Definition rejects : Host :=
  {| createImageBitmap := None;
     getContext2d := true;
     toDataURL := λ _, NoData |}.

(** Two files accepted while [Math.random] returns 0.5 both times:
    [(0.5).toString(36)] is ["0.i"], so both runs draw ["i"]. *)
Definition collision : list Event :=
  [ProcessFile photo_webp "i"; ProcessFile scan_webp "i"].

Definition item (i n u : string) (st : Status) : ConvertedImage :=
  {| id := i; originalName := n; pngUrl := u; status := st |}.

End Sample.

(** * Properties *)

(** ** Running the page *)

Lemma exec_app s t1 t2 :
  exec s (t1 ++ t2) = exec s t1 ≫= λ s1, exec s1 t2.
Proof.
  revert s. induction t1 as [|e t1 IH]; intros s; simpl; [done|].
  destruct (step s e) as [s'|]; simpl; [apply IH | done].
Qed.

Lemma exec_snoc s t e s' :
  exec s (t ++ [e]) = Some s' ↔ ∃ s0, exec s t = Some s0 ∧ step s0 e = Some s'.
Proof.
  rewrite exec_app. destruct (exec s t) as [s0|]; simpl.
  - destruct (step s0 e) as [s1|] eqn:E; simpl; split.
    + intros [= <-]. eauto.
    + intros (? & [= <-] & H). congruence.
    + done.
    + intros (? & [= <-] & H). congruence.
  - split; [done | intros (? & ? & _); done].
Qed.

Lemma drawn_app t1 t2 : drawn (t1 ++ t2) = drawn t1 ++ drawn t2.
Proof.
  induction t1 as [|e t1 IH]; simpl; [done|].
  destruct e as [file random| | | |]; try done.
  destruct (Str.startsWith _ _); simpl; by rewrite IH.
Qed.

Lemma elem_of_drawn i t :
  i ∈ drawn t ↔
  ∃ file, ProcessFile file i ∈ t ∧ Str.startsWith (type file) "image/" = true.
Proof.
  induction t as [|e t IH]; simpl.
  - split; [by intros ?%elem_of_nil | by intros (? & ?%elem_of_nil & _)].
  - assert (Hrest : (∃ file, ProcessFile file i ∈ t ∧
               Str.startsWith (type file) "image/" = true) →
             ∃ file, ProcessFile file i ∈ e :: t ∧
               Str.startsWith (type file) "image/" = true).
    { intros (f & Hf & Hty). exists f. split; [by right | done]. }
    destruct e as [file random| | | |];
      try (rewrite IH; split; [done|];
           intros (f & Hf & Hty); exists f; split; [|done];
           by apply elem_of_cons in Hf as [?|?]).
    destruct (Str.startsWith (type file) "image/") eqn:Hty.
    + rewrite elem_of_cons, IH. split.
      * intros [->|H]; [|by auto]. exists file. split; [by left | done].
      * intros (f & Hf & Hty'). apply elem_of_cons in Hf as [[= <- <-]|Hf];
          [by left | right; eauto].
    + rewrite IH. split; [done|].
      intros (f & Hf & Hty'). apply elem_of_cons in Hf as [[= <- <-]|Hf];
        [congruence | eauto].
Qed.

(** ** The updaters *)

Lemma markDone_ids i url prev : id <$> markDone i url prev = id <$> prev.
Proof.
  unfold markDone. rewrite <- list_fmap_compose. apply list_fmap_ext.
  intros _ img _. simpl. by case_decide.
Qed.

Lemma markError_ids i prev : id <$> markError i prev = id <$> prev.
Proof.
  unfold markError. rewrite <- list_fmap_compose. apply list_fmap_ext.
  intros _ img _. simpl. by case_decide.
Qed.

Lemma settle_ids i h prev : id <$> settle i h prev = id <$> prev.
Proof.
  unfold settle. destruct (convert h); [apply markDone_ids | apply markError_ids].
Qed.

(** An item after a settlement comes from an item before it: the same
    one when its identifier is another, and otherwise the same name with
    the new status, and the new output on success. *)
Lemma elem_of_settle i h prev img :
  img ∈ settle i h prev ↔
  ∃ img0, img0 ∈ prev ∧
    if decide (id img0 = i)
    then img = {| id := id img0; originalName := originalName img0;
                  pngUrl := default (pngUrl img0) (convert h);
                  status := match convert h with
                            | Some _ => done
                            | None => error
                            end |}
    else img = img0.
Proof.
  unfold settle, markDone, markError.
  destruct (convert h) as [url|]; rewrite list_elem_of_fmap; simpl;
    split; intros (img0 & H1 & H2); exists img0; split; try done;
    by case_decide.
Qed.

Lemma elem_of_removeItem i prev img :
  img ∈ removeItem i prev ↔ img ∈ prev ∧ id img ≠ i.
Proof. unfold removeItem. rewrite list_elem_of_filter. tauto. Qed.

Lemma removeItem_sublist i prev : removeItem i prev `sublist_of` prev.
Proof. apply sublist_filter. Qed.

(** The browser never exports an empty string. *)
Lemma convert_nonempty h url : convert h = Some url → url ≠ EmptyString.
Proof.
  unfold convert. destruct (createImageBitmap h); [|done].
  destruct (getContext2d h); [|done].
  intros [= <-]. by destruct (toDataURL h _).
Qed.

(** ** Suspended runs *)

Lemma takeOut_elem i l rest : takeOut i l = Some rest → i ∈ l.
Proof.
  revert rest. induction l as [|j l IH]; intros rest; simpl; [done|].
  case_decide as Hj; [subst; intros _; by left|].
  destruct (takeOut i l) as [r|]; simpl; [|done].
  intros _. right. by eapply IH.
Qed.

Lemma takeOut_perm i l rest : takeOut i l = Some rest → l ≡ₚ i :: rest.
Proof.
  revert rest. induction l as [|j l IH]; intros rest; simpl; [done|].
  case_decide as Hj; [by intros [= <-]; subst|].
  destruct (takeOut i l) as [r|]; simpl; [|done].
  intros [= <-]. rewrite (IH r eq_refl). apply Permutation_swap.
Qed.

Lemma Inv_initial : Inv [] initial.
Proof.
  repeat split; simpl; try apply NoDup_nil_2; by intros ? ?%elem_of_nil.
Qed.

Lemma Inv_processFile used s file random :
  Inv used s → (∀ i, i ∈ drawn [ProcessFile file random] → i ∉ used) →
  Inv (used ++ drawn [ProcessFile file random]) (processFile file random s).
Proof.
  intros (Hids & Hrun & Himg & Haw & Hst) Hfresh.
  unfold processFile. simpl in *.
  destruct (Str.startsWith (type file) "image/"); simpl;
    [|rewrite app_nil_r; by repeat split].
  assert (Hnew : random ∉ used) by (apply Hfresh; by left).
  unfold register. repeat split; simpl.
  - rewrite fmap_app. apply NoDup_app. split; [done|]. split.
    + intros i (img & Heq & Hin)%list_elem_of_fmap Hi.
      apply list_elem_of_singleton in Hi. simpl in Hi. subst i.
      apply Hnew. rewrite <- Hi. by apply Himg.
    + apply NoDup_singleton.
  - apply NoDup_app. split; [done|]. split; [|apply NoDup_singleton].
    intros i Hi Hn%list_elem_of_singleton. subst i. by apply Hnew, Haw.
  - intros img [Hin|Hn%list_elem_of_singleton]%elem_of_app;
      apply elem_of_app; [left; by apply Himg | right; subst img; by left].
  - intros i [Hin|Hn%list_elem_of_singleton]%elem_of_app;
      apply elem_of_app; [left; by apply Haw | right; subst i; by left].
  - intros img [Hin|Hn%list_elem_of_singleton]%elem_of_app.
    + destruct (Hst img Hin) as [(H1 & H2)|(H1 & H2)].
      * left. split; [|done]. apply elem_of_app. by left.
      * right. split; [|done].
        intros [?|Hn%list_elem_of_singleton]%elem_of_app; [done|].
        apply Hnew. rewrite <- Hn. by apply Himg.
    + subst img. left. simpl. split; [|done]. apply elem_of_app. right. by left.
Qed.

Lemma Inv_settle used s i h rest :
  Inv used s → takeOut i (awaiting s) = Some rest →
  Inv used {| images := settle i h (images s); awaiting := rest |}.
Proof.
  intros (Hids & Hrun & Himg & Haw & Hst) Hout.
  pose proof (takeOut_perm _ _ _ Hout) as Hperm.
  rewrite Hperm in Hrun. apply NoDup_cons in Hrun as [Hi Hrest].
  assert (Hmem : ∀ j, j ∈ awaiting s ↔ j = i ∨ j ∈ rest).
  { intros j. rewrite Hperm. apply elem_of_cons. }
  repeat split; simpl.
  - by rewrite settle_ids.
  - done.
  - intros img (img0 & Hin & Heq)%elem_of_settle.
    case_decide; subst img; simpl; by apply Himg.
  - intros j Hj. apply Haw, Hmem. by right.
  - intros img (img0 & Hin & Heq)%elem_of_settle.
    destruct (Hst img0 Hin) as [(H1 & H2 & H3)|(H1 & H2)].
    + case_decide as Hid; subst img; simpl.
      * right. split; [by rewrite Hid|].
        destruct (convert h) as [url|] eqn:Hc; simpl; [left|right; by rewrite H3].
        split; [done|]. by eapply convert_nonempty.
      * left. split; [|done]. apply Hmem in H1 as [?|?]; done.
    + case_decide as Hid; subst img; simpl.
      * exfalso. apply H1, Hmem. by left.
      * right. split; [|done]. intros Hr. apply H1, Hmem. by right.
Qed.

Lemma Inv_sub used s imgs :
  Inv used s → imgs `sublist_of` images s →
  Inv used {| images := imgs; awaiting := awaiting s |}.
Proof.
  intros (Hids & Hrun & Himg & Haw & Hst) Hsub.
  repeat split; simpl; try done.
  - eapply sublist_NoDup; [exact Hids|]. by apply fmap_sublist.
  - intros img Hin. eapply Himg, elem_of_sublist; done.
  - intros img Hin. eapply Hst, elem_of_sublist; done.
Qed.

Lemma Inv_step used s e s' :
  Inv used s → step s e = Some s' →
  (∀ i, i ∈ drawn [e] → i ∉ used) →
  Inv (used ++ drawn [e]) s'.
Proof.
  intros HI Hstep Hfresh. destruct e as [file random|i h|i| |].
  - injection Hstep as <-. by apply Inv_processFile.
  - simpl in *. rewrite app_nil_r.
    destruct (takeOut i (awaiting s)) as [rest|] eqn:Hout; [|done].
    injection Hstep as <-. by apply Inv_settle.
  - simpl in *. rewrite app_nil_r. injection Hstep as <-.
    apply Inv_sub; [done | apply removeItem_sublist].
  - simpl in *. rewrite app_nil_r. injection Hstep as <-.
    apply Inv_sub; [done | apply sublist_nil_l].
  - simpl in *. rewrite app_nil_r. by injection Hstep as <-.
Qed.

Lemma Inv_exec t : ∀ used s s',
  Inv used s → exec s t = Some s' →
  NoDup (drawn t) → (∀ i, i ∈ drawn t → i ∉ used) →
  Inv (used ++ drawn t) s'.
Proof.
  induction t as [|e t IH]; intros used s s' HI Hexec Hnd Hfresh.
  - simpl in *. rewrite app_nil_r. by injection Hexec as <-.
  - change (e :: t) with ([e] ++ t) in Hnd, Hfresh |- *.
    rewrite drawn_app in Hnd, Hfresh |- *.
    apply NoDup_app in Hnd as (Hnd1 & Hdisj & Hnd2).
    simpl in Hexec. destruct (step s e) as [s1|] eqn:Hstep; [|done].
    simpl in Hexec. rewrite app_assoc.
    apply (IH _ s1); [|done|done|].
    + apply (Inv_step used s e s1); [done|done|].
      intros i Hi. apply Hfresh, elem_of_app. by left.
    + intros i Hi [Hu|He]%elem_of_app.
      * apply (Hfresh i); [|done]. apply elem_of_app. by right.
      * by apply (Hdisj i).
Qed.

Lemma Inv_reachable t s :
  exec initial t = Some s → NoDup (drawn t) → Inv (drawn t) s.
Proof.
  intros Hexec Hnd.
  apply (Inv_exec t [] initial s Inv_initial Hexec Hnd).
  by intros ? _ ?%elem_of_nil.
Qed.

(** ** Registration *)

(** C2: a file whose declared content type does not start with
    [image/] registers no item: the whole page state, item list
    included, is left as it was. *)
Theorem processFile_skips_non_image (s : State) (file : File) (random : string) :
  Str.startsWith (type file) "image/" = false →
  step s (ProcessFile file random) = Some s.
Proof. intros Hty. simpl. unfold processFile. by rewrite Hty. Qed.

Lemma processFile_skips_non_image_witness :
  Str.startsWith (type Sample.notes_txt) "image/" = false ∧
  step initial (ProcessFile Sample.notes_txt "k") = Some initial.
Proof.
  split; [reflexivity|].
  apply (processFile_skips_non_image initial Sample.notes_txt "k").
  reflexivity.
Defined.

(** Where an item of the state after a step comes from: it is new and
    [converting], or an item of the state before with the same
    identifier and name, and [converting] unless that one was not. *)
Lemma step_origin s e s' img :
  step s e = Some s' → img ∈ images s' →
  status img = converting ∨
  ∃ img0, img0 ∈ images s ∧ id img0 = id img ∧
          originalName img0 = originalName img.
Proof.
  intros Hstep Hin. destruct e as [file random|i h|i| |]; simpl in Hstep.
  - injection Hstep as <-. unfold processFile in Hin.
    destruct (negb _); [right; eauto|]. simpl in Hin. unfold register in Hin.
    apply elem_of_app in Hin as [Hin|Hin%list_elem_of_singleton];
      [right; eauto | left; by subst].
  - destruct (takeOut i (awaiting s)); [|done]. injection Hstep as <-.
    simpl in Hin. apply elem_of_settle in Hin as (img0 & Hin0 & Heq).
    right. exists img0. case_decide; by subst.
  - injection Hstep as <-. simpl in Hin.
    apply elem_of_removeItem in Hin as [Hin _]. right; eauto.
  - injection Hstep as <-. by apply elem_of_nil in Hin.
  - injection Hstep as <-. right; eauto.
Qed.

Lemma converting_first t : ∀ s img,
  exec initial t = Some s → img ∈ images s →
  status img = converting ∨
  ∃ t1 t2 s1 img0,
    t = t1 ++ t2 ∧ t2 ≠ [] ∧ exec initial t1 = Some s1 ∧
    img0 ∈ images s1 ∧ id img0 = id img ∧
    originalName img0 = originalName img ∧ status img0 = converting.
Proof.
  induction t as [|e t IH] using rev_ind; intros s img Hexec Hin.
  - injection Hexec as <-. by apply elem_of_nil in Hin.
  - apply exec_snoc in Hexec as (s0 & Hexec & Hstep).
    destruct (step_origin _ _ _ _ Hstep Hin) as [?|(img0 & Hin0 & Hid & Hname)];
      [by left|].
    right. destruct (IH _ _ Hexec Hin0)
      as [Hconv|(t1 & t2 & s1 & img1 & -> & Hne & Hexec1 & Hin1 & Hid1 & Hname1 & Hst1)].
    + exists t, [e], s0, img0. by rewrite Hid, Hname.
    + exists t1, (t2 ++ [e]), s1, img1. rewrite app_assoc.
      repeat split; try done; [by destruct t2 | congruence | congruence].
Qed.

Lemma awaiting_drawn t : ∀ s i,
  exec initial t = Some s → i ∈ awaiting s → i ∈ drawn t.
Proof.
  induction t as [|e t IH] using rev_ind; intros s i Hexec Hin.
  - injection Hexec as <-. by apply elem_of_nil in Hin.
  - apply exec_snoc in Hexec as (s0 & Hexec & Hstep).
    rewrite drawn_app. apply elem_of_app.
    destruct e as [file random|j h|j| |]; simpl in Hstep.
    + injection Hstep as <-. unfold processFile in Hin. simpl.
      destruct (Str.startsWith _ _); simpl in Hin; [|left; eauto].
      apply elem_of_app in Hin as [Hin|Hin]; [left; eauto | by right].
    + destruct (takeOut j (awaiting s0)) as [rest|] eqn:Hout; [|done].
      injection Hstep as <-. simpl in Hin. left. apply (IH s0); [done|].
      rewrite (takeOut_perm _ _ _ Hout). by right.
    + injection Hstep as <-. left; eauto.
    + injection Hstep as <-. left; eauto.
    + injection Hstep as <-. left; eauto.
Qed.

(** C3: an accepted file registers exactly one item, appended to the
    list with the identifier just drawn, empty output and status
    [converting], in the same step that suspends the run on the
    decoder; a run settles only after such a registration with its
    identifier; and whenever an item is [done] or [error], an earlier
    state of the run held an item of that identifier and name that was
    [converting]. *)
Theorem registration_then_conversion :
  (∀ s file random,
     Str.startsWith (type file) "image/" = true →
     step s (ProcessFile file random) =
       Some {| images := images s ++
                 [ {| id := random; originalName := name file;
                      pngUrl := EmptyString; status := converting |} ];
               awaiting := awaiting s ++ [random] |}) ∧
  (∀ t1 t2 i h s,
     exec initial (t1 ++ Settle i h :: t2) = Some s →
     ∃ file, ProcessFile file i ∈ t1 ∧
             Str.startsWith (type file) "image/" = true) ∧
  (∀ t s img,
     exec initial t = Some s → img ∈ images s →
     status img = done ∨ status img = error →
     ∃ t1 t2 s1 img0,
       t = t1 ++ t2 ∧ t2 ≠ [] ∧ exec initial t1 = Some s1 ∧
       img0 ∈ images s1 ∧ id img0 = id img ∧
       originalName img0 = originalName img ∧ status img0 = converting).
Proof.
  split; [|split].
  - intros s file random Hty. simpl. unfold processFile. by rewrite Hty.
  - intros t1 t2 i h s Hexec. apply elem_of_drawn.
    rewrite exec_app in Hexec.
    destruct (exec initial t1) as [s1|] eqn:H1; [|done]. simpl in Hexec.
    destruct (takeOut i (awaiting s1)) as [rest|] eqn:Hout; [|done].
    eapply awaiting_drawn; [done|]. by eapply takeOut_elem.
  - intros t s img Hexec Hin Hst.
    destruct (converting_first t s img Hexec Hin) as [Hc|?]; [|done].
    destruct Hst; congruence.
Qed.

Lemma registration_then_conversion_witness :
  step initial (ProcessFile Sample.photo_webp "k3x9") =
    Some {| images := [Sample.item "k3x9" "photo.webp" EmptyString converting];
            awaiting := ["k3x9"] |} ∧
  (∃ file, ProcessFile file "k3x9" ∈ [ProcessFile Sample.photo_webp "k3x9"] ∧
           Str.startsWith (type file) "image/" = true) ∧
  (∃ t1 t2 s1 img0,
     [ProcessFile Sample.photo_webp "k3x9"; Settle "k3x9" Sample.decodes]
       = t1 ++ t2 ∧ t2 ≠ [] ∧ exec initial t1 = Some s1 ∧
     img0 ∈ images s1 ∧ id img0 = "k3x9" ∧
     originalName img0 = "photo.webp" ∧ status img0 = converting).
Proof.
  destruct registration_then_conversion as (Hreg & Horder & Hpath).
  split; [|split].
  - apply (Hreg initial Sample.photo_webp "k3x9"). reflexivity.
  - apply (Horder [ProcessFile Sample.photo_webp "k3x9"] []
             "k3x9" Sample.decodes
             {| images := [Sample.item "k3x9" "photo.webp"
                             "data:image/png;base64,iVBORw0KGgo=" done];
                awaiting := [] |}).
    reflexivity.
  - apply (Hpath
             [ProcessFile Sample.photo_webp "k3x9"; Settle "k3x9" Sample.decodes]
             {| images := [Sample.item "k3x9" "photo.webp"
                             "data:image/png;base64,iVBORw0KGgo=" done];
                awaiting := [] |}
             (Sample.item "k3x9" "photo.webp"
                "data:image/png;base64,iVBORw0KGgo=" done)).
    + reflexivity.
    + by left.
    + by left.
Defined.

(** ** Identifiers *)

(** C6, as stated, fails: when [Math.random] returns the same number
    for two accepted files, the list holds two items with one
    identifier. *)
Lemma ids_collide :
  exec initial Sample.collision =
    Some {| images := [Sample.item "i" "photo.webp" EmptyString converting;
                       Sample.item "i" "scan.webp" EmptyString converting];
            awaiting := ["i"; "i"] |} ∧
  ¬ NoDup (id <$> [Sample.item "i" "photo.webp" EmptyString converting;
                   Sample.item "i" "scan.webp" EmptyString converting]).
Proof.
  split; [reflexivity|].
  intros [Hnotin _]%NoDup_cons. apply Hnotin. by left.
Qed.

(** C6, amended: in every state reached by a run that never draws an
    identifier twice, the identifiers of the items are pairwise
    distinct. *)
Theorem ids_distinct (t : list Event) (s : State) :
  exec initial t = Some s → NoDup (drawn t) →
  NoDup (id <$> images s).
Proof. intros Hexec Hnd. by destruct (Inv_reachable t s Hexec Hnd). Qed.

Lemma ids_distinct_witness :
  NoDup (id <$> [Sample.item "a" "photo.webp" EmptyString converting;
                 Sample.item "b" "scan.webp" EmptyString converting]).
Proof.
  apply (ids_distinct
           [ProcessFile Sample.photo_webp "a"; ProcessFile Sample.scan_webp "b"]
           {| images := [Sample.item "a" "photo.webp" EmptyString converting;
                         Sample.item "b" "scan.webp" EmptyString converting];
              awaiting := ["a"; "b"] |}).
  - reflexivity.
  - simpl. apply NoDup_cons. split.
    + intros Hin%list_elem_of_singleton. discriminate Hin.
    + apply NoDup_singleton.
Defined.

(** ** Status and output *)

(** C4, as stated, fails: two runs that drew the same identifier, the
    first settling with a PNG and the second failing, leave both items
    in [error] with the first run's output still stored. *)
Lemma error_with_output :
  exec initial (Sample.collision ++
                [Settle "i" Sample.decodes; Settle "i" Sample.rejects]) =
    Some {| images :=
              [Sample.item "i" "photo.webp"
                 "data:image/png;base64,iVBORw0KGgo=" error;
               Sample.item "i" "scan.webp"
                 "data:image/png;base64,iVBORw0KGgo=" error];
            awaiting := [] |} ∧
  ¬ (status (Sample.item "i" "photo.webp"
               "data:image/png;base64,iVBORw0KGgo=" error) = done ↔
     pngUrl (Sample.item "i" "photo.webp"
               "data:image/png;base64,iVBORw0KGgo=" error) ≠ EmptyString).
Proof.
  split; [reflexivity|].
  simpl. intros [_ H]. by discriminate H.
Qed.

(** C4, amended: in every state reached by a run that never draws an
    identifier twice, an item is [done] exactly when its output is not
    empty; an item that is [converting] or [error] has empty output. *)
Theorem done_iff_output (t : list Event) (s : State) (img : ConvertedImage) :
  exec initial t = Some s → NoDup (drawn t) → img ∈ images s →
  (status img = done ↔ pngUrl img ≠ EmptyString) ∧
  (status img = converting ∨ status img = error → pngUrl img = EmptyString).
Proof.
  intros Hexec Hnd Hin.
  destruct (Inv_reachable t s Hexec Hnd) as (_ & _ & _ & _ & Hst).
  destruct (Hst img Hin) as [(_ & H1 & H2)|(_ & [(H1 & H2)|(H1 & H2)])];
    rewrite H1; (split; [split|]); try done;
    try (intros H; by destruct H); intros [H|H]; discriminate H.
Qed.

Lemma done_iff_output_witness :
  (status (Sample.item "a" "photo.webp"
             "data:image/png;base64,iVBORw0KGgo=" done) = done ↔
   pngUrl (Sample.item "a" "photo.webp"
             "data:image/png;base64,iVBORw0KGgo=" done) ≠ EmptyString) ∧
  (status (Sample.item "b" "scan.webp" EmptyString error) = converting ∨
   status (Sample.item "b" "scan.webp" EmptyString error) = error →
   pngUrl (Sample.item "b" "scan.webp" EmptyString error) = EmptyString).
Proof.
  assert (Hrun :
    exec initial
      [ProcessFile Sample.photo_webp "a"; ProcessFile Sample.scan_webp "b";
       Settle "b" Sample.rejects; Settle "a" Sample.decodes] =
    Some {| images := [Sample.item "a" "photo.webp"
                         "data:image/png;base64,iVBORw0KGgo=" done;
                       Sample.item "b" "scan.webp" EmptyString error];
            awaiting := [] |}) by reflexivity.
  assert (Hids : NoDup ["a"; "b"]).
  { apply NoDup_cons. split; [|apply NoDup_singleton].
    intros Hin%list_elem_of_singleton. discriminate Hin. }
  split.
  - apply (done_iff_output _ _ _ Hrun Hids). by left.
  - apply (done_iff_output _ _ _ Hrun Hids). right. by left.
Defined.

(** ** Terminal statuses *)

(** Identifiers determine items when they are distinct. *)
Lemma NoDup_ids_inj (imgs : list ConvertedImage) x y :
  NoDup (id <$> imgs) → x ∈ imgs → y ∈ imgs → id x = id y → x = y.
Proof.
  induction imgs as [|z imgs IH]; intros Hnd Hx Hy Hid;
    [by apply elem_of_nil in Hx|].
  rewrite fmap_cons in Hnd. apply NoDup_cons in Hnd as [Hz Hnd].
  apply elem_of_cons in Hx as [->|Hx]; apply elem_of_cons in Hy as [->|Hy].
  - done.
  - exfalso. apply Hz. rewrite Hid. by apply list_elem_of_fmap_2.
  - exfalso. apply Hz. rewrite <- Hid. by apply list_elem_of_fmap_2.
  - by apply IH.
Qed.

Lemma Settled_step x used s e s' :
  Settled x used s → step s e = Some s' →
  (∀ i, i ∈ drawn [e] → i ∉ used) →
  Settled x (used ++ drawn [e]) s'.
Proof.
  intros (Hu & Ha & Hz) Hstep Hfresh.
  split; [apply elem_of_app; by left|].
  destruct e as [file random|i h|i| |]; simpl in Hstep.
  - injection Hstep as <-. unfold processFile. simpl in Hfresh.
    destruct (Str.startsWith _ _); simpl; [|done].
    assert (Hne : random ≠ id x).
    { intros ->. apply (Hfresh (id x)); [by left | done]. }
    split.
    + intros [?|Hr%list_elem_of_singleton]%elem_of_app; [done|].
      by apply Hne.
    + unfold register.
      intros z [Hin|Hr%list_elem_of_singleton]%elem_of_app Hid; [by apply Hz|].
      subst z. simpl in Hid. congruence.
  - destruct (takeOut i (awaiting s)) as [rest|] eqn:Hout; [|done].
    injection Hstep as <-. simpl.
    pose proof (takeOut_perm _ _ _ Hout) as Hperm.
    assert (Hne : i ≠ id x).
    { intros ->. apply Ha. by eapply takeOut_elem. }
    split.
    + intros Hr. apply Ha. rewrite Hperm. by right.
    + intros z (z0 & Hin & Heq)%elem_of_settle Hid.
      case_decide as Hi; subst z; simpl in *; [congruence|].
      by apply Hz.
  - injection Hstep as <-. simpl. split; [done|].
    intros z [Hin _]%elem_of_removeItem. by apply Hz.
  - injection Hstep as <-. simpl. split; [done|].
    by intros z ?%elem_of_nil.
  - by injection Hstep as <-.
Qed.

Lemma Settled_exec x t : ∀ used s s',
  Settled x used s → exec s t = Some s' →
  (∀ i, i ∈ drawn t → i ∉ used) → NoDup (drawn t) →
  Settled x (used ++ drawn t) s'.
Proof.
  induction t as [|e t IH]; intros used s s' HS Hexec Hfresh Hnd.
  - simpl in *. rewrite app_nil_r. by injection Hexec as <-.
  - change (e :: t) with ([e] ++ t) in Hnd, Hfresh |- *.
    rewrite drawn_app in Hnd, Hfresh |- *.
    apply NoDup_app in Hnd as (Hnd1 & Hdisj & Hnd2).
    simpl in Hexec. destruct (step s e) as [s1|] eqn:Hstep; [|done].
    simpl in Hexec. rewrite app_assoc.
    apply (IH _ s1); [|done| |done].
    + apply (Settled_step x used s e s1); [done|done|].
      intros i Hi. apply Hfresh, elem_of_app. by left.
    + intros i Hi [Hu|He]%elem_of_app.
      * apply (Hfresh i); [|done]. apply elem_of_app. by right.
      * by apply (Hdisj i).
Qed.

(** C5, as stated, fails: with one identifier drawn by two runs, an
    item that is [done] after the first run settles is put to [error]
    when the second run fails. *)
Lemma done_then_error :
  exec initial (Sample.collision ++ [Settle "i" Sample.decodes]) =
    Some {| images :=
              [Sample.item "i" "photo.webp"
                 "data:image/png;base64,iVBORw0KGgo=" done;
               Sample.item "i" "scan.webp"
                 "data:image/png;base64,iVBORw0KGgo=" done];
            awaiting := ["i"] |} ∧
  step {| images :=
            [Sample.item "i" "photo.webp"
               "data:image/png;base64,iVBORw0KGgo=" done;
             Sample.item "i" "scan.webp"
               "data:image/png;base64,iVBORw0KGgo=" done];
          awaiting := ["i"] |}
       (Settle "i" Sample.rejects) =
    Some {| images :=
              [Sample.item "i" "photo.webp"
                 "data:image/png;base64,iVBORw0KGgo=" error;
               Sample.item "i" "scan.webp"
                 "data:image/png;base64,iVBORw0KGgo=" error];
            awaiting := [] |} ∧
  done ≠ error.
Proof. split; [reflexivity|]. split; [reflexivity | discriminate]. Qed.

(** C5, amended: along a run that never draws an identifier twice, once
    an item is [done] or [error], every item of that identifier in any
    later state has the same status (it is that very item, or the item
    has been removed): the status is never changed again and never goes
    back to [pending] or [converting]. *)
Theorem terminal_status_final (t1 t2 : list Event) (s1 s2 : State)
    (img img' : ConvertedImage) :
  NoDup (drawn (t1 ++ t2)) →
  exec initial t1 = Some s1 → exec s1 t2 = Some s2 →
  img ∈ images s1 → status img = done ∨ status img = error →
  img' ∈ images s2 → id img' = id img →
  status img' = status img.
Proof.
  intros Hnd Hexec1 Hexec2 Hin Hst Hin' Hid.
  rewrite drawn_app in Hnd. apply NoDup_app in Hnd as (Hnd1 & Hdisj & Hnd2).
  destruct (Inv_reachable t1 s1 Hexec1 Hnd1) as (Hids & _ & Himg & _ & Hstat).
  assert (HS : Settled img (drawn t1) s1).
  { split; [by apply Himg|]. split.
    - destruct (Hstat img Hin) as [(_ & Hc & _)|(Ha & _)]; [|done].
      destruct Hst; congruence.
    - intros z Hz Hzid. by apply (NoDup_ids_inj (images s1)). }
  destruct (Settled_exec img t2 (drawn t1) s1 s2 HS Hexec2) as (_ & _ & Huniq);
    [|done|].
  - intros i Hi2 Hi1. by apply (Hdisj i).
  - by rewrite (Huniq img' Hin' Hid).
Qed.

Lemma terminal_status_final_witness :
  status (Sample.item "a" "photo.webp"
            "data:image/png;base64,iVBORw0KGgo=" done) =
  status (Sample.item "a" "photo.webp"
            "data:image/png;base64,iVBORw0KGgo=" done).
Proof.
  apply (terminal_status_final
           [ProcessFile Sample.photo_webp "a"; Settle "a" Sample.decodes]
           [ProcessFile Sample.scan_webp "b"; Settle "b" Sample.rejects;
            RemoveItem "b"; DownloadAll]
           {| images := [Sample.item "a" "photo.webp"
                           "data:image/png;base64,iVBORw0KGgo=" done];
              awaiting := [] |}
           {| images := [Sample.item "a" "photo.webp"
                           "data:image/png;base64,iVBORw0KGgo=" done];
              awaiting := [] |}).
  - simpl. apply NoDup_cons. split.
    + intros Hin%list_elem_of_singleton. discriminate Hin.
    + apply NoDup_singleton.
  - reflexivity.
  - reflexivity.
  - by left.
  - by left.
  - by left.
  - reflexivity.
Defined.

(** ** Removal *)

Lemma removeItem_absent i imgs : i ∉ id <$> imgs → removeItem i imgs = imgs.
Proof.
  unfold removeItem. induction imgs as [|img imgs IH]; intros Hi; [done|].
  rewrite fmap_cons, not_elem_of_cons in Hi. destruct Hi as [Hne Hi].
  rewrite filter_cons_True by done. by rewrite IH.
Qed.

Lemma removeItem_length i imgs :
  length (removeItem i imgs) + length (filter (λ img, id img = i) imgs)
  = length imgs.
Proof.
  unfold removeItem. induction imgs as [|img imgs IH]; [done|].
  rewrite !filter_cons. destruct (decide (id img = i)) as [Heq|Hne].
  - rewrite decide_False by (intros H; by apply H). simpl. lia.
  - rewrite decide_True by done. simpl. lia.
Qed.

(** C9: removing an identifier that no item carries leaves the page
    state as it was, and so does clearing an empty list. *)
Theorem removal_idempotent (s : State) (i : string) :
  (i ∉ id <$> images s → step s (RemoveItem i) = Some s) ∧
  (images s = [] → step s ClearAll = Some s).
Proof.
  destruct s as [imgs aw]. simpl. split.
  - intros Hi. by rewrite removeItem_absent.
  - by intros ->.
Qed.

Lemma removal_idempotent_witness :
  step {| images := [Sample.item "a" "photo.webp" EmptyString converting];
          awaiting := ["a"] |} (RemoveItem "b") =
    Some {| images := [Sample.item "a" "photo.webp" EmptyString converting];
            awaiting := ["a"] |} ∧
  step initial ClearAll = Some initial.
Proof.
  split.
  - apply (removal_idempotent
             {| images := [Sample.item "a" "photo.webp" EmptyString converting];
                awaiting := ["a"] |} "b").
    simpl. intros Hin%list_elem_of_singleton. discriminate Hin.
  - apply (removal_idempotent initial "b"). reflexivity.
Defined.

(** C10: the remove action keeps exactly the items whose identifier is
    not the given one: what is left is a sub-list of the old list (same
    records, same order), holds every item of another identifier and
    none of this one, and is shorter by the number of items that
    carried the identifier, however many they were. *)
Theorem removeItem_frame (s : State) (i : string) :
  ∃ s', step s (RemoveItem i) = Some s' ∧
        awaiting s' = awaiting s ∧
        images s' `sublist_of` images s ∧
        (∀ img, img ∈ images s' ↔ img ∈ images s ∧ id img ≠ i) ∧
        length (images s') +
          length (filter (λ img, id img = i) (images s)) = length (images s) ∧
        i ∉ id <$> images s'.
Proof.
  eexists. split; [reflexivity|]. simpl.
  split; [done|]. split; [apply removeItem_sublist|].
  split; [apply elem_of_removeItem|]. split; [apply removeItem_length|].
  intros (img & Heq & [_ Hne]%elem_of_removeItem)%list_elem_of_fmap. done.
Qed.

(** ** Strings *)

Lemma app_cons c s t : String c s +:+ t = String c (s +:+ t).
Proof. reflexivity. Qed.

Lemma lastChar_app s t : t ≠ EmptyString → Str.lastChar (s +:+ t) = Str.lastChar t.
Proof.
  intros Ht. induction s as [|c s IH]; [done|].
  rewrite app_cons. simpl. destruct (s +:+ t) eqn:E; [|done].
  destruct s; [by destruct Ht | by rewrite app_cons in E].
Qed.

Lemma flat_lastChar s : Str.flat s = true → Str.lastChar s ≠ Some "/"%char.
Proof.
  induction s as [|c s IH]; simpl; [done|].
  intros [Hc Hs]%andb_prop. destruct s; [|by apply IH].
  intros [= ->]. done.
Qed.

Lemma flat_beforeLastSlash s : Str.flat s = true → Str.beforeLastSlash s = None.
Proof.
  induction s as [|c s IH]; simpl; [done|].
  intros [Hc Hs]%andb_prop. rewrite (IH Hs).
  by destruct (Ascii.eqb c "/").
Qed.

Lemma flat_app s t : Str.flat s = true → Str.flat t = true → Str.flat (s +:+ t) = true.
Proof.
  intros Hs Ht. induction s as [|c s IH]; [done|].
  rewrite app_cons. simpl in *. apply andb_prop in Hs as [Hc Hs].
  by rewrite Hc, IH.
Qed.

Lemma flat_stripExtension s : Str.flat s = true → Str.flat (Str.stripExtension s) = true.
Proof.
  induction s as [|c s IH]; simpl; [done|].
  intros [Hc Hs]%andb_prop. destruct (_ && Str.extTail s); [done|].
  simpl. by rewrite Hc, IH.
Qed.

Lemma extChars_dot s t : Str.extChars (s +:+ String "."%char t) = false.
Proof.
  induction s as [|c s IH]; [done|].
  rewrite app_cons. simpl. rewrite IH. apply andb_false_r.
Qed.

(** On a name of the shape [base.ext] the regular expression removes
    [.ext]: the dot it finds is the last one. *)
Lemma stripExtension_ext base ext :
  Str.extTail ext = true →
  Str.stripExtension (base +:+ String "."%char ext) = base.
Proof.
  intros Hext. induction base as [|c base IH].
  - change (EmptyString +:+ String "."%char ext) with (String "."%char ext).
    simpl. by rewrite Hext.
  - rewrite app_cons. simpl. rewrite IH.
    replace (Str.extTail (base +:+ String "."%char ext)) with false;
      [by rewrite andb_false_r|].
    pose proof (extChars_dot base ext) as Hd. unfold Str.extTail.
    by destruct (base +:+ String "."%char ext).
Qed.

(** ** The JSZip file table *)

Lemma forceTrailingSlash_last path :
  Str.lastChar (Zip.forceTrailingSlash path) = Some "/"%char.
Proof.
  unfold Zip.forceTrailingSlash. case_decide; [done|].
  by rewrite lastChar_app.
Qed.

(** Creating folders only touches names that end in a slash. *)
Lemma folderAdd_lookup fuel : ∀ path (files : JSZip) k,
  Str.lastChar k ≠ Some "/"%char →
  Zip.folderAdd fuel path files !! k = files !! k.
Proof.
  induction fuel as [|fuel IH]; intros path files k Hk; simpl;
    destruct (files !! Zip.forceTrailingSlash path); try done;
    (rewrite lookup_insert_ne;
       [|intros Heq; apply Hk; rewrite <- Heq; apply forceTrailingSlash_last]).
  - done.
  - case_decide; [done | by apply IH].
Qed.

Lemma length_beforeLastSlash s p :
  Str.beforeLastSlash s = Some p → String.length p < String.length s.
Proof.
  revert p. induction s as [|c s IH]; intros p; simpl; [done|].
  destruct (Str.beforeLastSlash s) as [q|].
  - intros [= <-]. simpl. specialize (IH q eq_refl). lia.
  - destruct (Ascii.eqb c "/"); [|done]. intros [= <-]. simpl. lia.
Qed.

Lemma length_dropLast s : String.length (Str.dropLast s) = String.length s - 1.
Proof.
  induction s as [|c s IH]; [done|].
  destruct s as [|c' s]; [done|].
  change (Str.dropLast (String c (String c' s)))
    with (String c (Str.dropLast (String c' s))).
  simpl String.length in *. lia.
Qed.

Lemma dropLast_app_slash s : Str.dropLast (s +:+ "/") = s.
Proof.
  induction s as [|c s IH]; [done|].
  rewrite app_cons. simpl. rewrite IH.
  destruct (s +:+ "/") eqn:E; [|done]. by destruct s.
Qed.

Lemma length_parentFolder path :
  String.length (Zip.parentFolder (Zip.forceTrailingSlash path))
  ≤ String.length path - 1.
Proof.
  unfold Zip.parentFolder. rewrite decide_True by apply forceTrailingSlash_last.
  unfold Zip.forceTrailingSlash. case_decide as Hlast.
  - destruct (Str.beforeLastSlash (Str.dropLast path)) as [q|] eqn:E;
      simpl; [|lia].
    apply length_beforeLastSlash in E. rewrite length_dropLast in E. lia.
  - rewrite dropLast_app_slash.
    destruct (Str.beforeLastSlash path) as [q|] eqn:E; simpl; [|lia].
    apply length_beforeLastSlash in E. lia.
Qed.

(** The folder chain of a path is shorter than the path, so the
    recursion of [folderAdd] never runs out of fuel: any bound from the
    length of the path on gives the same table. *)
Lemma folderAdd_fuel fuel1 : ∀ fuel2 path (files : JSZip),
  String.length path ≤ fuel1 → String.length path ≤ fuel2 →
  Zip.folderAdd fuel1 path files = Zip.folderAdd fuel2 path files.
Proof.
  induction fuel1 as [|fuel1 IH]; intros [|fuel2] path files H1 H2; simpl;
    destruct (files !! Zip.forceTrailingSlash path); try done.
  - pose proof (length_parentFolder path) as Hp.
    case_decide as Hparent; [done|].
    destruct (Zip.parentFolder (Zip.forceTrailingSlash path)); [done|].
    simpl in Hp. lia.
  - pose proof (length_parentFolder path) as Hp.
    case_decide as Hparent; [done|].
    destruct (Zip.parentFolder (Zip.forceTrailingSlash path)); [done|].
    simpl in Hp. lia.
  - pose proof (length_parentFolder path) as Hp.
    case_decide; [done|]. f_equal. apply IH; lia.
Qed.

(** Creating folders neither adds nor replaces a file entry. *)
Lemma folderAdd_file fuel : ∀ path (files : JSZip) k d,
  Zip.folderAdd fuel path files !! k = Some (ZipFile d) ↔
  files !! k = Some (ZipFile d).
Proof.
  induction fuel as [|fuel IH]; intros path files k d; simpl;
    destruct (files !! Zip.forceTrailingSlash path) eqn:Hp; try done;
    (destruct (decide (Zip.forceTrailingSlash path = k)) as [<-|Hne];
     [rewrite lookup_insert_eq, Hp; split; by intros [=]
     |rewrite lookup_insert_ne by done]).
  - done.
  - case_decide; [done | apply IH].
Qed.

Lemma file_lookup_file path data (files : JSZip) k d :
  Zip.file path data files !! k = Some (ZipFile d) ↔
  (k = path ∧ d = data) ∨ (k ≠ path ∧ files !! k = Some (ZipFile d)).
Proof.
  unfold Zip.file. destruct (decide (path = k)) as [<-|Hne].
  - rewrite lookup_insert_eq. split.
    + intros [= ->]. by left.
    + intros [[_ ->]|[Hne _]]; done.
  - rewrite lookup_insert_ne by done.
    assert (Hfiles :
      (if decide (Zip.parentFolder path = EmptyString) then files
       else Zip.folderAdd (String.length (Zip.parentFolder path))
              (Zip.parentFolder path) files) !! k = Some (ZipFile d)
      ↔ files !! k = Some (ZipFile d)).
    { case_decide; [done | apply folderAdd_file]. }
    rewrite Hfiles. split.
    + intros H. right. split; [congruence | done].
    + intros [[-> _]|[_ H]]; done.
Qed.

Lemma file_lookup path data (files : JSZip) :
  Zip.file path data files !! path = Some (ZipFile data).
Proof. unfold Zip.file. apply lookup_insert_eq. Qed.

Lemma file_lookup_other path data (files : JSZip) k :
  Str.lastChar k ≠ Some "/"%char → k ≠ path →
  Zip.file path data files !! k = files !! k.
Proof.
  intros Hk Hne. unfold Zip.file. rewrite lookup_insert_ne by done.
  case_decide; [done | by apply folderAdd_lookup].
Qed.

(** A name without a slash has no folders to create. *)
Lemma file_flat path data (files : JSZip) :
  Str.flat path = true → Zip.file path data files = <[path := ZipFile data]> files.
Proof.
  intros Hflat. assert (Hp : Zip.parentFolder path = EmptyString).
  { unfold Zip.parentFolder. destruct (decide (Str.lastChar path = Some "/"%char)) as [H|_].
    - by apply flat_lastChar in H.
    - by rewrite flat_beforeLastSlash. }
  unfold Zip.file. by rewrite Hp.
Qed.

Lemma fileName_last img : Str.lastChar (fileName img) ≠ Some "/"%char.
Proof. unfold fileName. by rewrite lastChar_app. Qed.

Lemma fileName_flat img :
  Str.flat (originalName img) = true → Str.flat (fileName img) = true.
Proof.
  intros H. unfold fileName. apply flat_app; [by apply flat_stripExtension | done].
Qed.

(** The derived name of [base.ext] is [base.png]. *)
Lemma fileName_replaces_extension img base ext :
  originalName img = base +:+ String "."%char ext → Str.extTail ext = true →
  fileName img = base +:+ ".png".
Proof. intros Hn Hext. unfold fileName. by rewrite Hn, stripExtension_ext. Qed.

Lemma addEntry_lookup zip img :
  addEntry zip img !! fileName img = Some (ZipFile (base64Data img)).
Proof. apply file_lookup. Qed.

Lemma foldl_addEntry_other l : ∀ (zip : JSZip) n,
  Str.lastChar n ≠ Some "/"%char →
  Forall (λ img, fileName img ≠ n) l →
  foldl addEntry zip l !! n = zip !! n.
Proof.
  induction l as [|img l IH]; intros zip n Hn Hl; simpl; [done|].
  apply Forall_cons in Hl as [Himg Hl]. rewrite IH by done.
  unfold addEntry. by apply file_lookup_other.
Qed.

Lemma foldl_addEntry_flat l : ∀ zip : JSZip,
  Forall (λ img, Str.flat (originalName img) = true) l →
  foldl addEntry zip l = foldl (λ z img, <[(entry img).1 := (entry img).2]> z) zip l.
Proof.
  induction l as [|img l IH]; intros zip Hl; simpl; [done|].
  apply Forall_cons in Hl as [Himg Hl]. rewrite IH by done.
  unfold addEntry. by rewrite file_flat by by apply fileName_flat.
Qed.

Lemma foldl_insert_list_to_map (l : list (string * ZipObject)) :
  foldl (λ z e, <[e.1 := e.2]> z) (∅ : JSZip) l = list_to_map (reverse l).
Proof.
  induction l as [|[k v] l IH] using rev_ind; [done|].
  by rewrite foldl_snoc, reverse_snoc, list_to_map_cons, IH.
Qed.

Lemma archive_flat imgs :
  Forall (λ img, Str.flat (originalName img) = true)
         (filter (λ img, status img = done) imgs) →
  archive imgs =
  list_to_map (reverse (entry <$> filter (λ img, status img = done) imgs)).
Proof.
  intros Hflat. unfold archive. rewrite foldl_addEntry_flat by done.
  by rewrite <- foldl_insert_list_to_map, foldl_fmap.
Qed.

(** With distinct derived names, the file entries of the table are the
    items' entries. *)
Lemma foldl_addEntry_files l :
  NoDup (fileName <$> l) → ∀ n d,
  foldl addEntry ∅ l !! n = Some (ZipFile d) ↔
  ∃ img, img ∈ l ∧ fileName img = n ∧ d = base64Data img.
Proof.
  induction l as [|x l IH] using rev_ind; intros Hnd n d.
  - simpl. rewrite lookup_empty. split; [done|].
    by intros (img & ?%elem_of_nil & _).
  - rewrite fmap_app in Hnd. apply NoDup_app in Hnd as (Hnd & Hdisj & _).
    rewrite foldl_snoc. unfold addEntry at 1. rewrite file_lookup_file.
    rewrite (IH Hnd). split.
    + intros [[-> ->]|[Hne (img & Hin & Hn & Hd)]].
      * exists x. split; [|done]. apply elem_of_app. right. by left.
      * exists img. split; [|done]. apply elem_of_app. by left.
    + intros (img & [Hin|Hx%list_elem_of_singleton]%elem_of_app & Hn & Hd).
      * right. split; [|by exists img].
        intros ->. apply (Hdisj (fileName img)).
        -- by apply list_elem_of_fmap_2.
        -- rewrite Hn. simpl. by left.
      * subst img. by left.
Qed.

Lemma fileEntries_archive imgs :
  NoDup (fileName <$> filter (λ img, status img = done) imgs) →
  fileEntries (archive imgs) ≡ₚ
  entry <$> filter (λ img, status img = done) imgs.
Proof.
  intros Hnd. unfold fileEntries, archive. apply NoDup_Permutation.
  - apply NoDup_filter, NoDup_map_to_list.
  - apply (NoDup_fmap_1 fst). by rewrite <- list_fmap_compose.
  - intros [n e]. rewrite list_elem_of_filter, elem_of_map_to_list. simpl.
    rewrite list_elem_of_fmap. unfold entry. destruct e as [d|]; simpl.
    + rewrite (foldl_addEntry_files _ Hnd). split.
      * intros [_ (img & Hin & <- & ->)]. by exists img.
      * intros (img & [= -> ->] & Hin). split; [done | by exists img].
    + split; [by intros [[=] _] | by intros (img & [=] & _)].
Qed.

(** A key of a map is the name of one entry of its listing. *)
Lemma map_to_list_single (m : JSZip) k v :
  m !! k = Some v → filter (λ e, e.1 = k) (map_to_list m) = [(k, v)].
Proof.
  intros Hk. apply elem_of_map_to_list in Hk.
  pose proof (NoDup_fst_map_to_list m) as Hnd.
  induction (map_to_list m) as [|[k' v'] l IH]; [by apply elem_of_nil in Hk|].
  rewrite fmap_cons in Hnd. apply NoDup_cons in Hnd as [Hk' Hnd].
  rewrite filter_cons. simpl in *.
  apply elem_of_cons in Hk as [Heq|Hin].
  - simplify_eq. rewrite decide_True by done. f_equal.
    clear IH. induction l as [|[k2 v2] l IH]; [done|].
    rewrite fmap_cons, not_elem_of_cons in Hk'. destruct Hk' as [Hne Hk'].
    apply NoDup_cons in Hnd as [_ Hnd].
    rewrite filter_cons. simpl. rewrite decide_False by done. by apply IH.
  - rewrite decide_False; [by apply IH|].
    intros ->. apply Hk'. apply list_elem_of_fmap. by exists (k, v).
Qed.

(** ** Bulk download *)

(** C1, as stated, fails: of two [done] items whose names differ only
    in the extension, the archive keeps one entry. *)
Lemma colliding_names_one_entry :
  length (filter (λ img, status img = done)
            [Sample.item "a" "a.webp" "data:image/png;base64,AAAA" done;
             Sample.item "b" "a.jpg" "data:image/png;base64,BBBB" done]) = 2 ∧
  map_to_list (archive
          [Sample.item "a" "a.webp" "data:image/png;base64,AAAA" done;
           Sample.item "b" "a.jpg" "data:image/png;base64,BBBB" done])
  = [("a.png", ZipFile "BBBB")].
Proof. split; vm_compute; reflexivity. Qed.

(** C1, amended: when the [done] items have pairwise distinct derived
    names, the file entries of the archive [downloadAll] builds are
    exactly the entries of the [done] items, one each: named by the
    item's derived name, holding the item's output without the data-URI
    prefix; there are as many as [done] items, and items that are not
    [done] contribute none.  For names without [/] the archive has no
    other entry (for a name with folders JSZip also stores the
    folders).  The blob JSZip generates from this table is saved as
    [converted_images.zip]. *)
Theorem archive_entries {Blob : Type} (generateAsync : JSZip → option Blob)
    (imgs : list ConvertedImage) :
  NoDup (fileName <$> filter (λ img, status img = done) imgs) →
  fileEntries (archive imgs) ≡ₚ
    entry <$> filter (λ img, status img = done) imgs ∧
  length (fileEntries (archive imgs)) =
    length (filter (λ img, status img = done) imgs) ∧
  (Forall (λ img, Str.flat (originalName img) = true)
          (filter (λ img, status img = done) imgs) →
   size (archive imgs) = length (filter (λ img, status img = done) imgs)) ∧
  (∀ content, generateAsync (archive imgs) = Some content →
              downloadAll generateAsync imgs =
                [SaveAs content "converted_images.zip"]).
Proof.
  intros Hnd. pose proof (fileEntries_archive imgs Hnd) as Hperm.
  split; [done|]. split; [|split].
  - by rewrite Hperm, length_fmap.
  - intros Hflat. rewrite (archive_flat imgs Hflat).
    rewrite map_size_list_to_map.
    + by rewrite length_reverse, length_fmap.
    + rewrite fmap_reverse, <- list_fmap_compose.
      by rewrite reverse_Permutation.
  - intros content Hgen. unfold downloadAll. by rewrite Hgen.
Qed.

Lemma archive_entries_witness :
  length (fileEntries (archive
            [Sample.item "a" "photo.webp" "data:image/png;base64,AAAA" done;
             Sample.item "b" "scan.webp" EmptyString error;
             Sample.item "c" "logo.gif" "data:image/png;base64,BBBB" done;
             Sample.item "d" "icon.bmp" EmptyString converting])) = 2 ∧
  size (archive
          [Sample.item "a" "photo.webp" "data:image/png;base64,AAAA" done;
           Sample.item "b" "scan.webp" EmptyString error;
           Sample.item "c" "logo.gif" "data:image/png;base64,BBBB" done;
           Sample.item "d" "icon.bmp" EmptyString converting]) = 2 ∧
  downloadAll (λ zip : JSZip, Some zip)
    [Sample.item "a" "photo.webp" "data:image/png;base64,AAAA" done;
     Sample.item "b" "scan.webp" EmptyString error;
     Sample.item "c" "logo.gif" "data:image/png;base64,BBBB" done;
     Sample.item "d" "icon.bmp" EmptyString converting]
  = [SaveAs {[ "photo.png" := ZipFile "AAAA"; "logo.png" := ZipFile "BBBB" ]}
            "converted_images.zip"].
Proof.
  destruct (archive_entries (λ zip : JSZip, Some zip)
              [Sample.item "a" "photo.webp" "data:image/png;base64,AAAA" done;
               Sample.item "b" "scan.webp" EmptyString error;
               Sample.item "c" "logo.gif" "data:image/png;base64,BBBB" done;
               Sample.item "d" "icon.bmp" EmptyString converting])
    as (_ & Hfiles & Hsize & Hsave).
  - apply (bool_decide_unpack _). vm_compute. reflexivity.
  - split; [exact Hfiles|]. split.
    + apply Hsize. apply (bool_decide_unpack _). vm_compute. reflexivity.
    + apply Hsave. vm_compute. reflexivity.
Defined.

(** C8: when two [done] items derive the same entry name and no [done]
    item after the second derives it again, the archive holds exactly
    one entry under that name, with the content of the second, later
    added, item. *)
Theorem later_entry_overwrites
    (before between after : list ConvertedImage) (img1 img2 : ConvertedImage) :
  status img1 = done → status img2 = done →
  fileName img1 = fileName img2 →
  Forall (λ img, status img = done → fileName img ≠ fileName img2) after →
  archive (before ++ img1 :: between ++ img2 :: after) !! fileName img2
    = Some (ZipFile (base64Data img2)) ∧
  filter (λ e, e.1 = fileName img2)
         (map_to_list (archive (before ++ img1 :: between ++ img2 :: after)))
    = [(fileName img2, ZipFile (base64Data img2))].
Proof.
  intros Hst1 Hst2 Hname Hafter.
  assert (Hlookup :
    archive (before ++ img1 :: between ++ img2 :: after) !! fileName img2
    = Some (ZipFile (base64Data img2))).
  { unfold archive.
    rewrite filter_app, filter_cons_True, filter_app, filter_cons_True by done.
    rewrite app_comm_cons, app_assoc, foldl_app. simpl.
    rewrite foldl_addEntry_other; [apply addEntry_lookup | apply fileName_last |].
    apply Forall_forall. intros img [Hst Hin]%list_elem_of_filter.
    rewrite Forall_forall in Hafter. by apply Hafter. }
  split; [done | by apply map_to_list_single].
Qed.

Lemma later_entry_overwrites_witness :
  archive
    [Sample.item "a" "a.webp" "data:image/png;base64,AAAA" done;
     Sample.item "b" "b.webp" EmptyString converting;
     Sample.item "c" "a.jpg" "data:image/png;base64,BBBB" done;
     Sample.item "d" "d.webp" "data:image/png;base64,CCCC" done]
    !! "a.png" = Some (ZipFile "BBBB").
Proof.
  apply (later_entry_overwrites []
           [Sample.item "b" "b.webp" EmptyString converting]
           [Sample.item "d" "d.webp" "data:image/png;base64,CCCC" done]
           (Sample.item "a" "a.webp" "data:image/png;base64,AAAA" done)
           (Sample.item "c" "a.jpg" "data:image/png;base64,BBBB" done)).
  - reflexivity.
  - reflexivity.
  - reflexivity.
  - apply Forall_cons. split; [|apply Forall_nil_2].
    intros _. discriminate.
Defined.

(** * Further properties *)

(** ** Dropping and selecting files *)

Lemma processFiles_state files : ∀ s,
  images (processFiles files s) =
    images s ++
    ((λ fr : File * string,
        {| id := fr.2; originalName := name fr.1;
           pngUrl := EmptyString; status := converting |}) <$>
     filter (λ fr : File * string,
               Str.startsWith (type fr.1) "image/" = true) files) ∧
  awaiting (processFiles files s) =
    awaiting s ++
    (snd <$> filter (λ fr : File * string,
                       Str.startsWith (type fr.1) "image/" = true) files).
Proof.
  unfold processFiles.
  induction files as [|[f r] files IH]; intros s; simpl.
  - by rewrite !app_nil_r.
  - destruct (IH (processFile f r s)) as [-> ->].
    unfold processFile.
    destruct (Str.startsWith (type f) "image/") eqn:Hty; simpl.
    + rewrite filter_cons_True by done. unfold register.
      by rewrite !fmap_cons, <- !app_assoc.
    + rewrite filter_cons_False; [done|]. simpl. by rewrite Hty.
Qed.

(** X1: a drop turns the highlight off and appends to the list, in the
    order of the dropped files, one [converting] item with empty output
    per file whose type starts with [image/]; the items already there
    are unchanged and the other files leave no trace.  A selection
    through the file input appends the same items. *)
Theorem handleDrop_appends (files : list (File * string)) (p : Page) :
  isDragging (handleDrop files p) = false ∧
  images (page (handleDrop files p)) =
    images (page p) ++
    ((λ fr : File * string,
        {| id := fr.2; originalName := name fr.1;
           pngUrl := EmptyString; status := converting |}) <$>
     filter (λ fr : File * string,
               Str.startsWith (type fr.1) "image/" = true) files) ∧
  awaiting (page (handleDrop files p)) =
    awaiting (page p) ++
    (snd <$> filter (λ fr : File * string,
                       Str.startsWith (type fr.1) "image/" = true) files) ∧
  page (handleFileSelect (Some files) p) = page (handleDrop files p).
Proof.
  split; [done|]. simpl.
  destruct (processFiles_state files (page p)) as [H1 H2]. by rewrite H1, H2.
Qed.

(** ** Runs *)

Lemma takeOut_length i l rest :
  takeOut i l = Some rest → length l = S (length rest).
Proof. intros H. by rewrite (takeOut_perm _ _ _ H). Qed.

Lemma settle_names i h prev :
  originalName <$> settle i h prev = originalName <$> prev.
Proof.
  unfold settle, markDone, markError.
  destruct (convert h); rewrite <- list_fmap_compose; apply list_fmap_ext;
    intros _ img _; simpl; by case_decide.
Qed.

Lemma exec_counts t : ∀ s s',
  exec s t = Some s' →
  length (awaiting s') + settled t = length (awaiting s) + length (drawn t).
Proof.
  induction t as [|e t IH]; intros s s' Hexec; simpl in *.
  - injection Hexec as <-. lia.
  - destruct (step s e) as [s1|] eqn:Hstep; [|done]. simpl in Hexec.
    specialize (IH _ _ Hexec).
    destruct e as [file random|i h|i| |]; simpl in Hstep.
    + injection Hstep as <-. unfold processFile in IH.
      destruct (Str.startsWith (type file) "image/"); simpl in *; [|lia].
      rewrite length_app in IH. simpl in IH. lia.
    + destruct (takeOut i (awaiting s)) as [rest|] eqn:Hout; [|done].
      injection Hstep as <-. simpl in IH.
      apply takeOut_length in Hout. lia.
    + injection Hstep as <-. simpl in IH. lia.
    + injection Hstep as <-. simpl in IH. lia.
    + injection Hstep as <-. lia.
Qed.

(** X2: along every run, the conversions still suspended plus the
    settlements so far make up the accepted files: every accepted file
    starts exactly one conversion and each conversion settles at most
    once. *)
Theorem conversions_accounted (t : list Event) (s : State) :
  exec initial t = Some s →
  length (awaiting s) + settled t = length (drawn t).
Proof. intros Hexec. by rewrite (exec_counts t initial s Hexec). Qed.

Lemma conversions_accounted_witness :
  length ["b"] + 1 = length ["a"; "b"].
Proof.
  apply (conversions_accounted
           [ProcessFile Sample.photo_webp "a"; ProcessFile Sample.notes_txt "n";
            ProcessFile Sample.scan_webp "b"; Settle "a" Sample.rejects]
           {| images := [Sample.item "a" "photo.webp" EmptyString error;
                         Sample.item "b" "scan.webp" EmptyString converting];
              awaiting := ["b"] |}).
  reflexivity.
Defined.

Lemma exec_order t : ∀ s s',
  exec s t = Some s' → Forall (λ e, removes e = false) t →
  id <$> images s' = (id <$> images s) ++ drawn t ∧
  originalName <$> images s' = (originalName <$> images s) ++ acceptedNames t.
Proof.
  induction t as [|e t IH]; intros s s' Hexec Hkeep; simpl in *.
  - injection Hexec as <-. by rewrite !app_nil_r.
  - destruct (step s e) as [s1|] eqn:Hstep; [|done]. simpl in Hexec.
    apply Forall_cons in Hkeep as [He Hkeep].
    destruct (IH _ _ Hexec Hkeep) as [-> ->].
    destruct e as [file random|i h|i| |]; simpl in Hstep; try done.
    + injection Hstep as <-. unfold processFile.
      destruct (Str.startsWith (type file) "image/"); simpl; [|done].
      unfold register. by rewrite !fmap_app, <- !app_assoc.
    + destruct (takeOut i (awaiting s)) as [rest|]; [|done].
      injection Hstep as <-. simpl. by rewrite settle_ids, settle_names.
    + by injection Hstep as <-.
Qed.

(** X3: as long as nothing is removed or cleared, the list holds one
    item per accepted file, in the order the files were accepted,
    whatever the order in which the conversions settle. *)
Theorem items_in_acceptance_order (t : list Event) (s : State) :
  exec initial t = Some s → Forall (λ e, removes e = false) t →
  id <$> images s = drawn t ∧
  originalName <$> images s = acceptedNames t ∧
  length (images s) = length (drawn t).
Proof.
  intros Hexec Hkeep.
  destruct (exec_order t initial s Hexec Hkeep) as [Hid Hname].
  simpl in *. split; [done|]. split; [done|].
  by rewrite <- Hid, length_fmap.
Qed.

Lemma items_in_acceptance_order_witness :
  id <$> [Sample.item "a" "photo.webp" EmptyString converting;
          Sample.item "b" "scan.webp" EmptyString error] = ["a"; "b"] ∧
  originalName <$> [Sample.item "a" "photo.webp" EmptyString converting;
                    Sample.item "b" "scan.webp" EmptyString error]
    = ["photo.webp"; "scan.webp"] ∧
  length [Sample.item "a" "photo.webp" EmptyString converting;
          Sample.item "b" "scan.webp" EmptyString error] = length ["a"; "b"].
Proof.
  apply (items_in_acceptance_order
           [ProcessFile Sample.photo_webp "a"; ProcessFile Sample.notes_txt "n";
            ProcessFile Sample.scan_webp "b"; Settle "b" Sample.rejects]
           {| images := [Sample.item "a" "photo.webp" EmptyString converting;
                         Sample.item "b" "scan.webp" EmptyString error];
              awaiting := ["a"] |}).
  - reflexivity.
  - repeat (apply Forall_cons; split; [reflexivity|]). apply Forall_nil_2.
Defined.

(** An item of the state after a step is an item of the state before
    with the same identifier and name, or the item the step
    registers. *)
Lemma step_source s e s' img :
  step s e = Some s' → img ∈ images s' →
  (∃ img0, img0 ∈ images s ∧ id img0 = id img ∧
           originalName img0 = originalName img) ∨
  (∃ file, e = ProcessFile file (id img) ∧
           Str.startsWith (type file) "image/" = true ∧
           name file = originalName img).
Proof.
  intros Hstep Hin. destruct e as [file random|i h|i| |]; simpl in Hstep.
  - injection Hstep as <-. unfold processFile in Hin.
    destruct (Str.startsWith (type file) "image/") eqn:Hty; simpl in Hin;
      [|left; eauto].
    unfold register in Hin.
    apply elem_of_app in Hin as [Hin|Hin%list_elem_of_singleton];
      [left; eauto|].
    right. exists file. by subst img.
  - destruct (takeOut i (awaiting s)); [|done]. injection Hstep as <-.
    simpl in Hin. apply elem_of_settle in Hin as (img0 & Hin0 & Heq).
    left. exists img0. case_decide; by subst.
  - injection Hstep as <-. simpl in Hin.
    apply elem_of_removeItem in Hin as [Hin _]. left; eauto.
  - injection Hstep as <-. by apply elem_of_nil in Hin.
  - injection Hstep as <-. left; eauto.
Qed.

(** X4: every item of a reachable state stems from a file that was
    handed to [processFile] and passed the type guard: it carries the
    identifier drawn for that file and the file's name, unaltered. *)
Theorem items_have_a_source (t : list Event) : ∀ (s : State) (img : ConvertedImage),
  exec initial t = Some s → img ∈ images s →
  ∃ file, ProcessFile file (id img) ∈ t ∧
          Str.startsWith (type file) "image/" = true ∧
          name file = originalName img.
Proof.
  induction t as [|e t IH] using rev_ind; intros s img Hexec Hin.
  - injection Hexec as <-. by apply elem_of_nil in Hin.
  - apply exec_snoc in Hexec as (s0 & Hexec & Hstep).
    destruct (step_source _ _ _ _ Hstep Hin)
      as [(img0 & Hin0 & Hid & Hname)|(file & -> & Hty & Hname)].
    + destruct (IH _ _ Hexec Hin0) as (file & Hf & Hty & Hn).
      exists file. rewrite <- Hid, <- Hname.
      split; [|done]. apply elem_of_app. by left.
    + exists file. split; [|done]. apply elem_of_app. right. by left.
Qed.

Lemma items_have_a_source_witness :
  ∃ file, ProcessFile file "a" ∈
            [ProcessFile Sample.photo_webp "a"; Settle "a" Sample.decodes] ∧
          Str.startsWith (type file) "image/" = true ∧
          name file = "photo.webp".
Proof.
  apply (items_have_a_source
           [ProcessFile Sample.photo_webp "a"; Settle "a" Sample.decodes]
           {| images := [Sample.item "a" "photo.webp"
                           "data:image/png;base64,iVBORw0KGgo=" done];
              awaiting := [] |}
           (Sample.item "a" "photo.webp"
              "data:image/png;base64,iVBORw0KGgo=" done)).
  - reflexivity.
  - by left.
Defined.

(** ** Status and output, whatever the identifiers *)

Lemma convert_data_url h url :
  convert h = Some url → Str.startsWith url "data:" = true.
Proof.
  unfold convert. destruct (createImageBitmap h); [|done].
  destruct (getContext2d h); [|done].
  intros [= <-]. by destruct (toDataURL h _).
Qed.

Lemma Sound_step s e s' :
  Forall Sound (images s) → step s e = Some s' → Forall Sound (images s').
Proof.
  rewrite !Forall_forall. intros HS Hstep img Hin.
  destruct e as [file random|i h|i| |]; simpl in Hstep.
  - injection Hstep as <-. unfold processFile in Hin.
    destruct (negb _); [by apply HS|]. simpl in Hin. unfold register in Hin.
    apply elem_of_app in Hin as [Hin|Hin%list_elem_of_singleton];
      [by apply HS|].
    subst img. by repeat split.
  - destruct (takeOut i (awaiting s)); [|done]. injection Hstep as <-.
    simpl in Hin. apply elem_of_settle in Hin as (img0 & Hin0 & Heq).
    case_decide; subst img; [|by apply HS].
    destruct (convert h) as [url|] eqn:Hc; repeat split; simpl; try done.
    intros _. by eapply convert_data_url.
  - injection Hstep as <-. simpl in Hin.
    apply elem_of_removeItem in Hin as [Hin _]. by apply HS.
  - injection Hstep as <-. by apply elem_of_nil in Hin.
  - injection Hstep as <-. by apply HS.
Qed.

Lemma Sound_exec t : ∀ s,
  exec initial t = Some s → Forall Sound (images s).
Proof.
  induction t as [|e t IH] using rev_ind; intros s Hexec.
  - injection Hexec as <-. apply Forall_nil_2.
  - apply exec_snoc in Hexec as (s0 & Hexec & Hstep).
    eapply Sound_step; [by apply IH | done].
Qed.

(** X5: in every reachable state, also when identifiers collide, no
    item is [pending], a [converting] item has empty output, and a
    [done] item's output is a data URL (so not empty). *)
Theorem done_has_output (t : list Event) (s : State) (img : ConvertedImage) :
  exec initial t = Some s → img ∈ images s →
  status img ≠ pending ∧
  (status img = converting → pngUrl img = EmptyString) ∧
  (status img = done →
   Str.startsWith (pngUrl img) "data:" = true ∧ pngUrl img ≠ EmptyString).
Proof.
  intros Hexec Hin. pose proof (Sound_exec t s Hexec) as HS.
  rewrite Forall_forall in HS. destruct (HS img Hin) as (Hp & Hc & Hd).
  split; [done|]. split; [done|].
  intros Hdone. specialize (Hd Hdone). split; [done|].
  intros Hempty. rewrite Hempty in Hd. discriminate Hd.
Qed.

Lemma done_has_output_witness :
  status (Sample.item "i" "photo.webp"
            "data:image/png;base64,iVBORw0KGgo=" done) ≠ pending ∧
  (status (Sample.item "i" "photo.webp"
             "data:image/png;base64,iVBORw0KGgo=" done) = converting →
   pngUrl (Sample.item "i" "photo.webp"
             "data:image/png;base64,iVBORw0KGgo=" done) = EmptyString) ∧
  (status (Sample.item "i" "photo.webp"
             "data:image/png;base64,iVBORw0KGgo=" done) = done →
   Str.startsWith
     (pngUrl (Sample.item "i" "photo.webp"
                "data:image/png;base64,iVBORw0KGgo=" done)) "data:" = true ∧
   pngUrl (Sample.item "i" "photo.webp"
             "data:image/png;base64,iVBORw0KGgo=" done) ≠ EmptyString).
Proof.
  apply (done_has_output
           (Sample.collision ++ [Settle "i" Sample.decodes])
           {| images := [Sample.item "i" "photo.webp"
                           "data:image/png;base64,iVBORw0KGgo=" done;
                         Sample.item "i" "scan.webp"
                           "data:image/png;base64,iVBORw0KGgo=" done];
              awaiting := ["i"] |}).
  - reflexivity.
  - by left.
Defined.

(** ** Settlements *)

(** X6: a settlement keeps the list's length, identifiers and names,
    position by position, and leaves every item of another identifier
    exactly as it was. *)
Theorem settle_frame (i : string) (h : Host) (prev : list ConvertedImage) :
  length (settle i h prev) = length prev ∧
  id <$> settle i h prev = id <$> prev ∧
  originalName <$> settle i h prev = originalName <$> prev ∧
  (∀ (k : nat) img, prev !! k = Some img → id img ≠ i →
                    settle i h prev !! k = Some img).
Proof.
  split; [|split; [apply settle_ids | split; [apply settle_names|]]].
  - unfold settle, markDone, markError.
    destruct (convert h); apply length_fmap.
  - intros k img Hk Hne. unfold settle, markDone, markError.
    destruct (convert h); rewrite list_lookup_fmap, Hk; simpl;
      by rewrite decide_False.
Qed.

Lemma settle_absent i h prev : i ∉ id <$> prev → settle i h prev = prev.
Proof.
  intros Hi. unfold settle, markDone, markError.
  destruct (convert h); rewrite <- (list_fmap_id prev) at 2;
    apply list_fmap_ext; intros k img Hk; simpl;
    (rewrite decide_False; [done|]);
    intros <-; apply Hi, list_elem_of_fmap; exists img;
    (split; [done|]); by eapply list_elem_of_lookup_2.
Qed.

(** X7: a conversion that settles after its item was removed (or the
    list cleared) changes nothing in the list, whether it succeeded or
    failed: the run just ends. *)
Theorem settle_after_removal (s : State) (i : string) (h : Host)
    (rest : list string) :
  i ∉ id <$> images s → takeOut i (awaiting s) = Some rest →
  step s (Settle i h) = Some {| images := images s; awaiting := rest |}.
Proof. intros Hi Hout. simpl. rewrite Hout. simpl. by rewrite settle_absent. Qed.

Lemma settle_after_removal_witness :
  step {| images := [Sample.item "b" "scan.webp" EmptyString converting];
          awaiting := ["a"; "b"] |} (Settle "a" Sample.decodes) =
  Some {| images := [Sample.item "b" "scan.webp" EmptyString converting];
          awaiting := ["b"] |}.
Proof.
  apply (settle_after_removal
           {| images := [Sample.item "b" "scan.webp" EmptyString converting];
              awaiting := ["a"; "b"] |} "a" Sample.decodes ["b"]).
  - simpl. intros Hin%list_elem_of_singleton. discriminate Hin.
  - reflexivity.
Defined.

Lemma settle_settle i j h h' prev :
  i ≠ j →
  settle j h' (settle i h prev) = settle i h (settle j h' prev).
Proof.
  intros Hne. unfold settle, markDone, markError.
  destruct (convert h), (convert h'); rewrite <- !list_fmap_compose;
    apply list_fmap_ext; intros _ img _; simpl;
    repeat case_decide; simpl in *; congruence.
Qed.

Lemma takeOut_takeOut i j l r1 r2 :
  i ≠ j → takeOut i l = Some r1 → takeOut j r1 = Some r2 →
  ∃ r1', takeOut j l = Some r1' ∧ takeOut i r1' = Some r2.
Proof.
  intros Hne. revert r1 r2.
  induction l as [|k l IH]; intros r1 r2 H1 H2; simpl in *; [done|].
  destruct (decide (k = i)) as [->|Hki].
  - injection H1 as <-. rewrite decide_False by done.
    rewrite H2. simpl. eexists. split; [done|]. simpl.
    by rewrite decide_True.
  - destruct (takeOut i l) as [r|] eqn:Hr; [|done]. injection H1 as <-.
    simpl in H2. destruct (decide (k = j)) as [->|Hkj].
    + injection H2 as <-. eexists. split; [done|]. by rewrite Hr.
    + destruct (takeOut j r) as [r'|] eqn:Hr'; [|done]. injection H2 as <-.
      destruct (IH r r' eq_refl Hr') as (r1' & -> & Hi).
      simpl. eexists. split; [done|]. simpl.
      rewrite decide_False by done. by rewrite Hi.
Qed.

(** X8: conversions of different identifiers may settle in either
    order: whenever one order is possible so is the other, and both end
    in the same state. *)
Theorem settlements_commute (s s1 s2 : State) (i j : string) (h h' : Host) :
  i ≠ j →
  step s (Settle i h) = Some s1 → step s1 (Settle j h') = Some s2 →
  ∃ s1', step s (Settle j h') = Some s1' ∧ step s1' (Settle i h) = Some s2.
Proof.
  intros Hne H1 H2. simpl in *.
  destruct (takeOut i (awaiting s)) as [r1|] eqn:Hr1; [|done].
  injection H1 as <-. simpl in H2.
  destruct (takeOut j r1) as [r2|] eqn:Hr2; [|done]. injection H2 as <-.
  destruct (takeOut_takeOut i j _ _ _ Hne Hr1 Hr2) as (r1' & -> & Hi).
  simpl. eexists. split; [done|]. simpl. rewrite Hi. simpl.
  by rewrite settle_settle.
Qed.

Lemma settlements_commute_witness :
  ∃ s1', step {| images := [Sample.item "a" "photo.webp" EmptyString converting;
                            Sample.item "b" "scan.webp" EmptyString converting];
                 awaiting := ["a"; "b"] |} (Settle "b" Sample.rejects)
           = Some s1' ∧
         step s1' (Settle "a" Sample.decodes) =
           Some {| images := [Sample.item "a" "photo.webp"
                                "data:image/png;base64,iVBORw0KGgo=" done;
                              Sample.item "b" "scan.webp" EmptyString error];
                   awaiting := [] |}.
Proof.
  apply (settlements_commute
           {| images := [Sample.item "a" "photo.webp" EmptyString converting;
                         Sample.item "b" "scan.webp" EmptyString converting];
              awaiting := ["a"; "b"] |}
           {| images := [Sample.item "a" "photo.webp"
                           "data:image/png;base64,iVBORw0KGgo=" done;
                         Sample.item "b" "scan.webp" EmptyString converting];
              awaiting := ["b"] |}).
  - discriminate.
  - reflexivity.
  - reflexivity.
Defined.

(** ** Removing items *)

Lemma removeItem_removeItem i j prev :
  removeItem i (removeItem j prev) = removeItem j (removeItem i prev).
Proof.
  unfold removeItem. induction prev as [|img prev IH]; [done|].
  rewrite !filter_cons.
  destruct (decide (id img ≠ j)), (decide (id img ≠ i));
    rewrite ?filter_cons; repeat case_decide; try done; by rewrite IH.
Qed.

(** X9: removing is idempotent, removals of two identifiers commute,
    and a removal commutes with a settlement: it does not matter
    whether an item is removed before or after another conversion
    settles. *)
Theorem removeItem_algebra (i j : string) (h : Host) (prev : list ConvertedImage) :
  removeItem i (removeItem i prev) = removeItem i prev ∧
  removeItem i (removeItem j prev) = removeItem j (removeItem i prev) ∧
  removeItem j (settle i h prev) = settle i h (removeItem j prev).
Proof.
  split; [|split; [apply removeItem_removeItem|]].
  - apply removeItem_absent.
    intros (img & Heq & [_ Hne]%elem_of_removeItem)%list_elem_of_fmap. done.
  - unfold removeItem, settle, markDone, markError.
    induction prev as [|img prev IH]; [by destruct (convert h)|].
    destruct (convert h) as [url|]; rewrite fmap_cons, !filter_cons; simpl;
      (destruct (decide (id img = i)) as [Hi|Hi]; simpl;
       destruct (decide (id img ≠ j)) as [Hj|Hj];
       rewrite ?fmap_cons; simpl; rewrite ?decide_True by done;
       rewrite ?decide_False by done; by rewrite IH).
Qed.

(** X10: registering a file under an identifier no item carries and
    then removing that identifier gives back the list as it was. *)
Theorem register_then_remove (i original : string) (prev : list ConvertedImage) :
  i ∉ id <$> prev → removeItem i (register i original prev) = prev.
Proof.
  intros Hi. unfold register, removeItem. rewrite filter_app.
  rewrite filter_cons_False by (simpl; intros H; by apply H).
  rewrite filter_nil, app_nil_r. by apply removeItem_absent.
Qed.

Lemma register_then_remove_witness :
  removeItem "b" (register "b" "scan.webp"
                    [Sample.item "a" "photo.webp" EmptyString converting])
  = [Sample.item "a" "photo.webp" EmptyString converting].
Proof.
  apply (register_then_remove "b" "scan.webp"
           [Sample.item "a" "photo.webp" EmptyString converting]).
  simpl. intros Hin%list_elem_of_singleton. discriminate Hin.
Defined.

Lemma removeItem_one (prev : list ConvertedImage) img :
  NoDup (id <$> prev) → img ∈ prev →
  prev ≡ₚ img :: removeItem (id img) prev.
Proof.
  induction prev as [|x prev IH]; intros Hnd Hin;
    [by apply elem_of_nil in Hin|].
  rewrite fmap_cons in Hnd. apply NoDup_cons in Hnd as [Hx Hnd].
  unfold removeItem. apply elem_of_cons in Hin as [->|Hin].
  - rewrite filter_cons_False by (intros H; by apply H).
    fold (removeItem (id x) prev).
    by rewrite (removeItem_absent (id x) prev Hx).
  - rewrite filter_cons_True.
    + fold (removeItem (id img) prev).
      rewrite (IH Hnd Hin) at 1. apply Permutation_swap.
    + intros Heq. apply Hx. rewrite Heq. by apply list_elem_of_fmap_2.
Qed.

(** X11: along a run that never draws an identifier twice, the remove
    button of a card takes exactly that item off the list: the other
    items stay and the list gets shorter by one. *)
Theorem remove_button_removes_one (t : list Event) (s : State)
    (img : ConvertedImage) :
  exec initial t = Some s → NoDup (drawn t) → img ∈ images s →
  ∃ s', step s (RemoveItem (removeTarget (card img))) = Some s' ∧
        images s ≡ₚ img :: images s' ∧
        S (length (images s')) = length (images s) ∧
        img ∉ images s'.
Proof.
  intros Hexec Hnd Hin.
  destruct (Inv_reachable t s Hexec Hnd) as (Hids & _).
  eexists. split; [reflexivity|]. simpl.
  pose proof (removeItem_one (images s) img Hids Hin) as Hperm.
  split; [done|]. split; [by rewrite Hperm at 2|].
  intros [_ Hne]%elem_of_removeItem. done.
Qed.

Lemma remove_button_removes_one_witness :
  ∃ s', step {| images := [Sample.item "a" "photo.webp" EmptyString converting;
                           Sample.item "b" "scan.webp" EmptyString converting];
                awaiting := ["a"; "b"] |}
             (RemoveItem (removeTarget
                (card (Sample.item "a" "photo.webp" EmptyString converting))))
          = Some s' ∧
        [Sample.item "a" "photo.webp" EmptyString converting;
         Sample.item "b" "scan.webp" EmptyString converting]
          ≡ₚ Sample.item "a" "photo.webp" EmptyString converting :: images s' ∧
        S (length (images s')) = 2 ∧
        Sample.item "a" "photo.webp" EmptyString converting ∉ images s'.
Proof.
  apply (remove_button_removes_one
           [ProcessFile Sample.photo_webp "a"; ProcessFile Sample.scan_webp "b"]
           {| images := [Sample.item "a" "photo.webp" EmptyString converting;
                         Sample.item "b" "scan.webp" EmptyString converting];
              awaiting := ["a"; "b"] |}).
  - reflexivity.
  - simpl. apply NoDup_cons. split.
    + intros Hin%list_elem_of_singleton. discriminate Hin.
    + apply NoDup_singleton.
  - by left.
Defined.

(** ** Derived names *)

Lemma stripExtension_cut s :
  Str.stripExtension s = s ∨
  ∃ ext, Str.extTail ext = true ∧
         s = Str.stripExtension s +:+ String "."%char ext.
Proof.
  induction s as [|c s IH]; [by left|]. simpl.
  destruct (Ascii.eqb c "."%char) eqn:Hc; simpl.
  - destruct (Str.extTail s) eqn:Hext.
    + right. exists s. apply Ascii.eqb_eq in Hc as ->. done.
    + destruct IH as [->|(ext & He & Hs)]; [by left|].
      right. exists ext. split; [done|]. by rewrite app_cons, <- Hs.
  - destruct IH as [->|(ext & He & Hs)]; [by left|].
    right. exists ext. split; [done|]. by rewrite app_cons, <- Hs.
Qed.

(** X12: what the regular expression [/\.[^/.]+$/] removes: a name
    [base.ext], where [ext] is not empty and holds neither [/] nor [.],
    is cut down to [base]; any name is either left as it is or is its
    result followed by such a [.ext].  So only the last extension goes,
    a trailing dot stays, and a dot before a [/] is not an
    extension. *)
Theorem stripExtension_spec (s : string) :
  (∀ base ext, Str.extTail ext = true →
               s = base +:+ String "."%char ext →
               Str.stripExtension s = base) ∧
  (Str.stripExtension s = s ∨
   ∃ ext, Str.extTail ext = true ∧
          s = Str.stripExtension s +:+ String "."%char ext).
Proof.
  split; [|apply stripExtension_cut].
  intros base ext Hext ->. by apply stripExtension_ext.
Qed.

Lemma stripExtension_spec_witness :
  Str.stripExtension "archive.tar.gz" = "archive.tar" ∧
  (Str.stripExtension "archive.tar.gz" = "archive.tar.gz" ∨
   ∃ ext, Str.extTail ext = true ∧
          "archive.tar.gz" =
            Str.stripExtension "archive.tar.gz" +:+ String "."%char ext).
Proof.
  destruct (stripExtension_spec "archive.tar.gz") as [Hcut Hcases].
  split; [|exact Hcases].
  apply (Hcut "archive.tar" "gz"); reflexivity.
Defined.

(** X13: deriving the name is idempotent: a file that already carries
    the derived name of an item (so ends in [.png]) derives that same
    name; nothing is appended twice. *)
Theorem fileName_idempotent (img img' : ConvertedImage) :
  originalName img' = fileName img → fileName img' = fileName img.
Proof.
  intros Hn. unfold fileName at 1. rewrite Hn. unfold fileName.
  by rewrite stripExtension_ext.
Qed.

Lemma fileName_idempotent_witness :
  fileName (Sample.item "b" "photo.png" EmptyString converting) =
  fileName (Sample.item "a" "photo.webp" EmptyString converting).
Proof.
  apply (fileName_idempotent
           (Sample.item "a" "photo.webp" EmptyString converting)
           (Sample.item "b" "photo.png" EmptyString converting)).
  reflexivity.
Defined.

(** ** Outputs *)

Lemma removePrefix_app p s : Str.removePrefix p (p +:+ s) = Some s.
Proof.
  induction p as [|c p IH]; [done|].
  rewrite app_cons. simpl. by rewrite Ascii.eqb_refl.
Qed.

(** X14: stripping the data-URI prefix undoes the canvas export: for an
    output that is the export of a PNG, what goes into the archive is
    exactly the base64 payload; the export [data:,] of a canvas without
    pixels does not match the prefix and goes in as it is. *)
Theorem base64Data_export (img : ConvertedImage) (u : DataURL) :
  pngUrl img = dataUrlString u →
  base64Data img = match u with
                   | PngData b => b
                   | NoData => "data:,"
                   end.
Proof.
  intros Hu. unfold base64Data. rewrite Hu. destruct u as [b|].
  - unfold dataUrlString. by rewrite removePrefix_app.
  - reflexivity.
Qed.

Lemma base64Data_export_witness :
  base64Data (Sample.item "a" "photo.webp"
                "data:image/png;base64,iVBORw0KGgo=" done) = "iVBORw0KGgo=".
Proof.
  apply (base64Data_export
           (Sample.item "a" "photo.webp"
              "data:image/png;base64,iVBORw0KGgo=" done)
           (PngData "iVBORw0KGgo=")).
  reflexivity.
Defined.

(** ** The archive *)







Lemma foldl_addEntry_source l : ∀ (zip : JSZip) n d,
  foldl addEntry zip l !! n = Some (ZipFile d) →
  zip !! n = Some (ZipFile d) ∨
  ∃ img, img ∈ l ∧ fileName img = n ∧ d = base64Data img.
Proof.
  induction l as [|x l IH]; intros zip n d H; simpl in H; [by left|].
  destruct (IH _ _ _ H) as [Hx|(img & Hin & Hn & Hd)].
  - unfold addEntry in Hx. apply file_lookup_file in Hx as [[-> ->]|[_ Hz]].
    + right. exists x. split; [by left | done].
    + by left.
  - right. exists img. split; [by right | done].
Qed.

(** X16: whatever the names, a file entry of the archive comes from a
    [done] item of the list: it is stored under that item's derived
    name and holds that item's stripped output.  Items that are not
    [done] never put a file into the archive. *)
Theorem archive_entry_source (imgs : list ConvertedImage) (n d : string) :
  archive imgs !! n = Some (ZipFile d) →
  ∃ img, img ∈ imgs ∧ status img = done ∧
         fileName img = n ∧ d = base64Data img.
Proof.
  intros H. unfold archive in H.
  apply foldl_addEntry_source in H as [H|(img & Hin & Hn & Hd)].
  - by rewrite lookup_empty in H.
  - apply list_elem_of_filter in Hin as [Hst Hin]. by exists img.
Qed.

Lemma archive_entry_source_witness :
  ∃ img, img ∈ [Sample.item "a" "a.webp" "data:image/png;base64,AAAA" done;
                Sample.item "b" "a.jpg" "data:image/png;base64,BBBB" done] ∧
         status img = done ∧ fileName img = "a.png" ∧ "BBBB" = base64Data img.
Proof.
  apply (archive_entry_source
           [Sample.item "a" "a.webp" "data:image/png;base64,AAAA" done;
            Sample.item "b" "a.jpg" "data:image/png;base64,BBBB" done]
           "a.png" "BBBB").
  vm_compute. reflexivity.
Defined.

(** ** The gallery *)

(** X17: in every reachable state, also when identifiers collide, a
    card that offers a download shows the converted image: its anchor
    points at the very data URL shown in the thumbnail, and downloads
    it under the name of the caption. *)
Theorem download_anchor_shows_image (t : list Event) (s : State)
    (c : Card) (href dl : string) :
  exec initial t = Some s → c ∈ gallery (render (images s)) →
  anchor c = Some (href, dl) →
  thumb c = Picture href ∧
  Str.startsWith href "data:" = true ∧
  dl = caption c.
Proof.
  intros Hexec Hc Ha. pose proof (Sound_exec t s Hexec) as HS.
  rewrite Forall_forall in HS. simpl in Hc.
  apply list_elem_of_fmap in Hc as (img & -> & Hin).
  destruct (HS img Hin) as (_ & _ & Hd). simpl in *.
  destruct (decide (status img = done)) as [Hst|]; [|done].
  injection Ha as <- <-. specialize (Hd Hst).
  split; [|done]. unfold thumbnail.
  rewrite decide_False by congruence.
  destruct (pngUrl img); [discriminate Hd | done].
Qed.

Lemma download_anchor_shows_image_witness :
  thumb (card (Sample.item "a" "photo.webp"
                 "data:image/png;base64,iVBORw0KGgo=" done))
    = Picture "data:image/png;base64,iVBORw0KGgo=" ∧
  Str.startsWith "data:image/png;base64,iVBORw0KGgo=" "data:" = true ∧
  "photo.png" = caption (card (Sample.item "a" "photo.webp"
                                 "data:image/png;base64,iVBORw0KGgo=" done)).
Proof.
  apply (download_anchor_shows_image
           [ProcessFile Sample.photo_webp "a"; Settle "a" Sample.decodes]
           {| images := [Sample.item "a" "photo.webp"
                           "data:image/png;base64,iVBORw0KGgo=" done];
              awaiting := [] |}).
  - reflexivity.
  - by left.
  - reflexivity.
Defined.

(** X18: along a run that never draws an identifier twice, the
    thumbnail tells the status: the spinner for [converting], the image
    of the stored output for [done], the error text for [error]; and a
    card offers a download exactly when it shows the image. *)
Theorem thumbnail_tells_status (t : list Event) (s : State)
    (img : ConvertedImage) :
  exec initial t = Some s → NoDup (drawn t) → img ∈ images s →
  (thumbnail img = Spinner ↔ status img = converting) ∧
  (thumbnail img = Picture (pngUrl img) ↔ status img = done) ∧
  (thumbnail img = ErrorMark ↔ status img = error) ∧
  (is_Some (anchor (card img)) ↔ ∃ src, thumbnail img = Picture src).
Proof.
  intros Hexec Hnd Hin.
  destruct (Inv_reachable t s Hexec Hnd) as (_ & _ & _ & _ & Hst).
  unfold thumbnail, card. simpl.
  destruct (Hst img Hin) as [(_ & H1 & H2)|(_ & [(H1 & H2)|(H1 & H2)])];
    rewrite H1; simpl.
  - repeat split; try done; try (by intros [? ?]).
  - destruct (pngUrl img) eqn:Hu; [done|].
    repeat split; try done; eauto.
  - rewrite H2. repeat split; try done; try (by intros [? ?]).
Qed.

Lemma thumbnail_tells_status_witness :
  (thumbnail (Sample.item "b" "scan.webp" EmptyString error) = Spinner ↔
   status (Sample.item "b" "scan.webp" EmptyString error) = converting) ∧
  (thumbnail (Sample.item "b" "scan.webp" EmptyString error) =
     Picture (pngUrl (Sample.item "b" "scan.webp" EmptyString error)) ↔
   status (Sample.item "b" "scan.webp" EmptyString error) = done) ∧
  (thumbnail (Sample.item "b" "scan.webp" EmptyString error) = ErrorMark ↔
   status (Sample.item "b" "scan.webp" EmptyString error) = error) ∧
  (is_Some (anchor (card (Sample.item "b" "scan.webp" EmptyString error))) ↔
   ∃ src, thumbnail (Sample.item "b" "scan.webp" EmptyString error)
          = Picture src).
Proof.
  apply (thumbnail_tells_status
           [ProcessFile Sample.photo_webp "a"; ProcessFile Sample.scan_webp "b";
            Settle "b" Sample.rejects; Settle "a" Sample.decodes]
           {| images := [Sample.item "a" "photo.webp"
                           "data:image/png;base64,iVBORw0KGgo=" done;
                         Sample.item "b" "scan.webp" EmptyString error];
              awaiting := [] |}).
  - reflexivity.
  - simpl. apply NoDup_cons. split.
    + intros Hin%list_elem_of_singleton. discriminate Hin.
    + apply NoDup_singleton.
  - right. by left.
Defined.


(** ** Round trip of the export *)

Lemma base64Data_png img b :
  pngUrl img = pngPrefix +:+ b → base64Data img = b.
Proof.
  intros H. unfold base64Data. by rewrite H, removePrefix_app.
Qed.

(** C7, as stated, fails: a valid image whose canvas the browser cannot
    serialise is stored as [done] with the output [data:,]; stripping
    the prefix leaves [data:,], which is not base64, so no decoder
    reads a PNG from it.  The encoder contract is met: nothing was
    encoded. *)
Lemma export_without_pixels :
  createImageBitmap Browser.unserialised
    = Some {| width := 40000; height := 40000 |} ∧
  exec initial [ProcessFile Sample.photo_webp "a";
                Settle "a" Browser.unserialised] =
    Some {| images := [Sample.item "a" "photo.webp" "data:," done];
            awaiting := [] |} ∧
  base64Data (Sample.item "a" "photo.webp" "data:," done) = "data:," ∧
  (∀ pngDims, pngEncoder pngDims Browser.unserialised) ∧
  (∀ pngDims, pngSize pngDims "data:," = None).
Proof.
  split; [reflexivity|]. split; [reflexivity|]. split; [reflexivity|].
  split; [|reflexivity]. intros pngDims c b H. discriminate H.
Qed.

(** C7, amended: for a valid image whose conversion runs through with
    an output other than [data:,], and a browser whose PNG encoder
    keeps the canvas's size, every item of the run's identifier is
    [done] with that output, and the output without the data-URI prefix
    is base64 of a PNG whose width and height are those of the decoded
    source image. *)
Theorem png_round_trip (pngDims : string → option (N * N)) (h : Host)
    (bitmap : ImageBitmap) (url i : string) (prev : list ConvertedImage)
    (img : ConvertedImage) :
  pngEncoder pngDims h →
  createImageBitmap h = Some bitmap → convert h = Some url → url ≠ "data:," →
  img ∈ settle i h prev → id img = i →
  status img = done ∧ pngUrl img = url ∧
  pngSize pngDims (base64Data img) = Some (width bitmap, height bitmap).
Proof.
  intros Henc Hbitmap Hconv Hurl Hin Hid.
  assert (Hpng : ∃ b, url = pngPrefix +:+ b ∧ isBase64 b = true ∧
                      pngDims b = Some (width bitmap, height bitmap)).
  { unfold convert in Hconv. rewrite Hbitmap in Hconv.
    destruct (getContext2d h); [|done]. injection Hconv as Hconv.
    destruct (toDataURL h _) as [b|] eqn:Hexport; [|by destruct Hurl].
    destruct (Henc _ _ Hexport) as [Hb64 Hdims]. by exists b. }
  destruct Hpng as (b & Hb & Hb64 & Hdims).
  apply elem_of_settle in Hin as (img0 & _ & Heq).
  destruct (decide (id img0 = i)) as [Hi|Hi]; [|subst img; done].
  rewrite Hconv in Heq.
  assert (Hout : pngUrl img = url) by by subst img.
  split; [by subst img|]. split; [done|].
  rewrite (base64Data_png img b) by by rewrite Hout.
  unfold pngSize. by rewrite Hb64.
Qed.

Lemma png_round_trip_witness :
  status (Sample.item "a" "photo.webp"
            "data:image/png;base64,iVBORw0KGgo=" done) = done ∧
  pngUrl (Sample.item "a" "photo.webp"
            "data:image/png;base64,iVBORw0KGgo=" done)
    = "data:image/png;base64,iVBORw0KGgo=" ∧
  pngSize Browser.pngDims
    (base64Data (Sample.item "a" "photo.webp"
                   "data:image/png;base64,iVBORw0KGgo=" done))
    = Some (2, 2)%N.
Proof.
  apply (png_round_trip Browser.pngDims Browser.encodes
           {| width := 2; height := 2 |}
           "data:image/png;base64,iVBORw0KGgo=" "a"
           [Sample.item "a" "photo.webp" EmptyString converting]).
  - intros [w hgt] b. simpl.
    destruct (w =? 2)%N eqn:Hw; [|discriminate].
    destruct (hgt =? 2)%N eqn:Hh; [|discriminate].
    simpl. intros [= <-].
    apply N.eqb_eq in Hw as ->. apply N.eqb_eq in Hh as ->.
    split; reflexivity.
  - reflexivity.
  - reflexivity.
  - discriminate.
  - by left.
  - reflexivity.
Defined.
